(** * Push-time secret scanning and the blob reader of gitness

    A shallow embedding of
    - [app/api/controller/githook/pre_receive_scan_secrets.go]
      ([scanSecrets], [scanSecretsInternal]) and
    - [git/api/blob.go] ([GetBlob], [limitReaderCloser]),
    together with the properties the design document states about them.

    Go functions that return [(value, err)] return a sum here: [inl err] when
    [err != nil], [inr value] otherwise.  Calls to collaborators that live
    outside the two files are recorded, with their answers, in a call log that
    every run returns next to its result. *)

From Stdlib Require Import String Ascii List ZArith Lia Bool Arith.
Import ListNotations.
Local Open Scope string_scope.
Local Open Scope list_scope.

(* ================================================================== *)
(** ** Go error values *)
(* ================================================================== *)

Module GoError.

(** The status carried by an error of the repository's [errors] package.
    [blob.go] builds one with [errors.InvalidArgument]; the other statuses of
    that package are not told apart here. *)
Inductive Status : Type :=
| StatusInvalidArgument
| StatusOther (code : string).

(** The error values the two files build or pass on:
    - [errorString]: [fmt.Errorf] without [%w] (a message and nothing else);
    - [wrapError]:   [fmt.Errorf] with [%w] (a message and the wrapped cause);
    - [statusError]: an [*errors.Error] with its status. *)
Inductive error : Type :=
| errorString (msg : string)
| wrapError (msg : string) (err : error)
| statusError (status : Status) (msg : string).

(** [err.Error()]. *)
Definition error_Error (e : error) : string :=
  match e with
  | errorString m => m
  | wrapError m _ => m
  | statusError _ m => m
  end.

(** [fmt.Errorf(prefix + "%w", err)]. *)
Definition fmt_Errorf_w (prefix : string) (err : error) : error :=
  wrapError (prefix ++ error_Error err)%string err.

(** [errors.Unwrap(err)]. *)
Definition Unwrap (e : error) : option error :=
  match e with
  | wrapError _ c => Some c
  | _ => None
  end.

(** The status found by walking the chain of wrapped causes, as [errors.As]
    with a [*errors.Error] target does; [None] when the chain holds no error
    with a status. *)
Fixpoint error_status (e : error) : option Status :=
  match e with
  | errorString _ => None
  | wrapError _ c => error_status c
  | statusError s _ => Some s
  end.

(** [errors.InvalidArgument(msg)]. *)
Definition errors_InvalidArgument (msg : string) : error :=
  statusError StatusInvalidArgument msg.

Definition Result (A : Type) : Type := (error + A)%type.

End GoError.

Import GoError.

(* ================================================================== *)
(** ** Secret scanning at pre-receive *)
(* ================================================================== *)

Module Githook.

(** What [scanSecrets] needs of the types declared outside the file: the object
    ids ([sha.SHA] with its methods [String] and [IsNil]), the constant
    [types.NilSHA] and the findings ([api.Finding]), which it never
    inspects. *)
Class GitTypes : Type := {
  SHA : Type;
  SHA_String : SHA -> string;
  SHA_IsNil : SHA -> bool;
  NilSHA : string;
  Finding : Type
}.

(** [hook.Output]: the ordered messages and the optional blocking error. *)
Record Output : Type := {
  Messages : list string;
  Error : option string
}.

Section Types.
Context {T : GitTypes}.

Record ReferenceUpdate : Type := {
  Ref : string;
  Old : SHA;
  New : SHA
}.

Record Environment : Type := {
  AlternateObjectDirs : list string
}.

Record GithookPreReceiveInput : Type := {
  input_Environment : Environment;
  RefUpdates : list ReferenceUpdate
}.

Record Repository : Type := {
  ID : Z;
  GitUID : string
}.

Record ReadParams : Type := {
  RepoUID : string;
  read_AlternateObjectDirs : list string
}.

Record ScanSecretsParams : Type := {
  params_ReadParams : ReadParams;
  BaseRev : string;
  Rev : string
}.

Record ScanSecretsOutput : Type := {
  Findings : list Finding
}.

Record scanSecretsResult : Type := {
  findings : list Finding
}.

Definition HasResults (r : scanSecretsResult) : bool :=
  Nat.ltb 0 (length (findings r)).

(** One entry of the call log: the collaborator, its arguments and what it
    answered.  The [ctx] every call takes and the [rgit] handed to the
    fallback discovery are not recorded, and the [log.Debug] lines of the
    source are left out. *)
Inductive Call : Type :=
| CallRepoGet (repoID : Z) (key : string) (default : bool)
    (answer : Result bool)
| CallGetBaseSHA (repo : Repository) (env : Environment)
    (refUpdates : list ReferenceUpdate) (refUpdate : ReferenceUpdate)
    (answer : Result (SHA * bool))
| CallScanSecrets (params : ScanSecretsParams)
    (answer : Result ScanSecretsOutput).

End Types.

(** The collaborators: the settings service, the fallback discovery
    [GetBaseSHAForScanningChanges], the [ScanSecrets] method of
    [RestrictedGIT] and the printer [printScanSecretsFindings].  The first three
    do I/O: they read and change a [World] that [scanSecrets] knows nothing about. *)
Class Collaborators {T : GitTypes} : Type := {
  World : Type;
  KeySecretScanningEnabled : string;
  DefaultSecretScanningEnabled : bool;
  settings_RepoGet : Z -> string -> bool -> World -> Result bool * World;
  GetBaseSHAForScanningChanges :
    Repository -> Environment -> list ReferenceUpdate -> ReferenceUpdate ->
    World -> Result (SHA * bool) * World;
  rgit_ScanSecrets : ScanSecretsParams -> World -> Result ScanSecretsOutput * World;
  printScanSecretsFindings : Output -> list Finding -> Output
}.

Section ScanSecrets.
Context {T : GitTypes} {C : Collaborators}.

(** *** Runs: a result, the calls made, the world left behind *)

Definition M (A : Type) : Type := World -> A * list Call * World.

Definition ret {A : Type} (a : A) : M A := fun w => (a, [], w).

Definition bind {A B : Type} (m : M A) (k : A -> M B) : M B :=
  fun w =>
    let '(a, l1, w1) := m w in
    let '(b, l2, w2) := k a w1 in
    (b, l1 ++ l2, w2).

Notation "x <- m ;; k" := (bind m (fun x => k))
  (at level 61, m at next level, right associativity).

Definition call_RepoGet (repoID : Z) (key : string) (default : bool)
  : M (Result bool) :=
  fun w =>
    let '(r, w') := settings_RepoGet repoID key default w in
    (r, [CallRepoGet repoID key default r], w').

Definition call_GetBaseSHA (repo : Repository) (env : Environment)
    (refUpdates : list ReferenceUpdate) (refUpdate : ReferenceUpdate)
  : M (Result (SHA * bool)) :=
  fun w =>
    let '(r, w') := GetBaseSHAForScanningChanges repo env refUpdates refUpdate w in
    (r, [CallGetBaseSHA repo env refUpdates refUpdate r], w').

Definition call_ScanSecrets (params : ScanSecretsParams)
  : M (Result ScanSecretsOutput) :=
  fun w =>
    let '(r, w') := rgit_ScanSecrets params w in
    (r, [CallScanSecrets params r], w').

(** *** [scanSecretsInternal] *)

(** The value [baseRevFallBack] points to once the fallback discovery has
    answered. *)
Definition fallbackRev (answer : SHA * bool) : string :=
  let '(fallbackSHA, fallbackAvailable) := answer in
  if fallbackAvailable then SHA_String fallbackSHA else EmptyString.

(** The [if refUpdate.Old.IsNil()] block of the loop body: the memo
    [baseRevFallBack] after it and the [baseRev] to scan from. *)
Definition resolveBaseRev (repo : Repository) (in_ : GithookPreReceiveInput)
    (baseRevFallBack : option string) (refUpdate : ReferenceUpdate)
  : M (Result (option string * string)) :=
  let baseRev := (SHA_String (Old refUpdate) ++ "^{commit}")%string in
  if SHA_IsNil (Old refUpdate) then
    match baseRevFallBack with
    | None =>
        r <- call_GetBaseSHA repo (input_Environment in_) (RefUpdates in_) refUpdate ;;
        match r with
        | inl err => ret (inl (fmt_Errorf_w "failed to get fallback sha: " err))
        | inr answer => ret (inr (Some (fallbackRev answer), fallbackRev answer))
        end
    | Some fb => ret (inr (Some fb, fb))
    end
  else ret (inr (baseRevFallBack, baseRev)).

(** One turn of the [for _, refUpdate := range in.RefUpdates] loop, from the
    loop variables [baseRevFallBack] and [res] to their values after the turn;
    [inl] is the early [return] with an error. *)
Definition scanRefUpdate (repo : Repository) (in_ : GithookPreReceiveInput)
    (baseRevFallBack : option string) (res : scanSecretsResult)
    (refUpdate : ReferenceUpdate)
  : M (Result (option string * scanSecretsResult)) :=
  if String.eqb (SHA_String (New refUpdate)) NilSHA then
    ret (inr (baseRevFallBack, res))
  else
    let rev := (SHA_String (New refUpdate) ++ "^{commit}")%string in
    b <- resolveBaseRev repo in_ baseRevFallBack refUpdate ;;
    match b with
    | inl err => ret (inl err)
    | inr (baseRevFallBack', baseRev) =>
        o <- call_ScanSecrets
               {| params_ReadParams :=
                    {| RepoUID := GitUID repo;
                       read_AlternateObjectDirs :=
                         AlternateObjectDirs (input_Environment in_) |};
                  BaseRev := baseRev;
                  Rev := rev |} ;;
        match o with
        | inl err => ret (inl (fmt_Errorf_w "failed to detect secret leaks: " err))
        | inr scanSecretsOut =>
            if Nat.eqb (length (Findings scanSecretsOut)) 0 then
              ret (inr (baseRevFallBack', res))
            else
              ret (inr (baseRevFallBack',
                        {| findings := findings res ++ Findings scanSecretsOut |}))
        end
    end.

Fixpoint scanLoop (repo : Repository) (in_ : GithookPreReceiveInput)
    (refUpdates : list ReferenceUpdate)
    (baseRevFallBack : option string) (res : scanSecretsResult)
  : M (Result scanSecretsResult) :=
  match refUpdates with
  | [] => ret (inr res)
  | refUpdate :: rest =>
      r <- scanRefUpdate repo in_ baseRevFallBack res refUpdate ;;
      match r with
      | inl err => ret (inl err)
      | inr (baseRevFallBack', res') => scanLoop repo in_ rest baseRevFallBack' res'
      end
  end.

Definition scanSecretsInternal (repo : Repository) (in_ : GithookPreReceiveInput)
  : M (Result scanSecretsResult) :=
  scanLoop repo in_ (RefUpdates in_) None {| findings := [] |}.

(** *** [scanSecrets] *)

(** [output] is the value behind the [*hook.Output] the caller passes; the
    run returns the value behind it on exit and the returned [error]. *)
Definition scanSecrets (repo : Repository) (in_ : GithookPreReceiveInput)
    (output : Output) : M (Output * option error) :=
  s <- call_RepoGet (ID repo) KeySecretScanningEnabled DefaultSecretScanningEnabled ;;
  match s with
  | inl err =>
      ret (output,
           Some (fmt_Errorf_w
                   "failed to check settings whether secret scanning is enabled: " err))
  | inr scanningEnabled =>
      if negb scanningEnabled then ret (output, None)
      else
        r <- scanSecretsInternal repo in_ ;;
        match r with
        | inl err => ret (output, Some (fmt_Errorf_w "failed to scan for git leaks: " err))
        | inr scanResult =>
            if negb (HasResults scanResult) then ret (output, None)
            else
              let output1 := printScanSecretsFindings output (findings scanResult) in
              let output2 :=
                {| Messages := Messages output1 ++ [EmptyString; EmptyString];
                   Error := Error output1 |} in
              let output3 :=
                {| Messages := Messages output2;
                   Error := Some "Changes blocked by security scan results" |} in
              ret (output3, None)
        end
  end.

End ScanSecrets.

End Githook.

(* ================================================================== *)
(** ** The blob reader *)
(* ================================================================== *)

Module Blob.

Definition LF : string := String (ascii_of_nat 10) EmptyString.

(** [io.EOF]. *)
Definition io_EOF : error := errorString "EOF".

(** The [git cat-file --batch] process [CatFileBatch] starts, seen from
    [GetBlob]: what a write to its stdin answers, what it was sent, the bytes
    it has yet to deliver on its stdout, and how often its [cancel] function
    was called. *)
Record Batch : Type := {
  stdin_broken : option error;
  stdin_written : list string;
  stdout_pending : list Byte.byte;
  cancels : nat
}.

(** What [blob.go] uses and does not declare: the process started for a
    repository path ([CatFileBatch]), the header parser
    ([ReadBatchHeaderLine], which consumes the header from the process's
    stdout and leaves the rest), the error mapping [processGitErrorf] and the
    constant [GitObjectTypeBlob]. *)
Class Backend : Type := {
  CatFileBatch : string -> Batch;
  ReadBatchHeaderLine :
    list Byte.byte -> Result (string * string * Z) * list Byte.byte;
  processGitErrorf : error -> string -> error;
  GitObjectTypeBlob : string
}.

(** [cancel()]. *)
Definition cancel (p : Batch) : Batch :=
  {| stdin_broken := stdin_broken p;
     stdin_written := stdin_written p;
     stdout_pending := stdout_pending p;
     cancels := S (cancels p) |}.

(** [stdIn.Write(data)]. *)
Definition stdin_Write (data : string) (p : Batch) : option error * Batch :=
  match stdin_broken p with
  | Some err => (Some err, p)
  | None =>
      (None,
       {| stdin_broken := None;
          stdin_written := stdin_written p ++ [data];
          stdout_pending := stdout_pending p;
          cancels := cancels p |})
  end.

Definition set_stdout (rest : list Byte.byte) (p : Batch) : Batch :=
  {| stdin_broken := stdin_broken p;
     stdin_written := stdin_written p;
     stdout_pending := rest;
     cancels := cancels p |}.

(** [stdOut.Read(p)] with [len(p) = k]: up to [k] of the pending bytes, and
    [io.EOF] once none is left.  (A pipe may hand out fewer bytes per Read;
    callers below read with every buffer size.) *)
Definition stdout_Read (k : nat) (p : Batch)
  : list Byte.byte * option error * Batch :=
  match stdout_pending p with
  | [] => ([], (if Nat.eqb k 0 then None else Some io_EOF), p)
  | pending => (firstn k pending, None, set_stdout (skipn k pending) p)
  end.

(** [io.LimitedReader] over the process's stdout: [N] bytes are left to
    hand out. *)
Record LimitedReader : Type := {
  N : Z
}.

Definition io_LimitReader (n : Z) : LimitedReader := {| N := n |}.

(** The [Read] method of [io.LimitedReader]:
    [if l.N <= 0 { return 0, EOF }; if int64(len(p)) > l.N { p = p[0:l.N] };
     n, err = l.R.Read(p); l.N -= int64(n)]. *)
Definition LimitedReader_Read (l : LimitedReader) (k : nat) (p : Batch)
  : list Byte.byte * option error * LimitedReader * Batch :=
  if (N l <=? 0)%Z then ([], Some io_EOF, l, p)
  else
    let k' := if (Z.of_nat k >? N l)%Z then Z.to_nat (N l) else k in
    let '(bytes, err, p') := stdout_Read k' p in
    (bytes, err, {| N := N l - Z.of_nat (length bytes) |}, p').

Record limitReaderCloser : Type := {
  reader : LimitedReader;
  stop : Batch -> Batch
}.

Definition newLimitReaderCloser (limit : Z) (stop : Batch -> Batch)
  : limitReaderCloser :=
  {| reader := io_LimitReader limit; stop := stop |}.

Definition limitReaderCloser_Read (l : limitReaderCloser) (k : nat) (p : Batch)
  : list Byte.byte * option error * limitReaderCloser * Batch :=
  let '(bytes, err, r, p') := LimitedReader_Read (reader l) k p in
  (bytes, err, {| reader := r; stop := stop l |}, p').

Definition limitReaderCloser_Close (l : limitReaderCloser) (p : Batch)
  : option error * Batch :=
  (None, stop l p).

Record BlobReader : Type := {
  SHA : string;
  Size : Z;
  ContentSize : Z;
  Content : limitReaderCloser
}.

Section GetBlob.
Context {B : Backend}.

(** [GetBlob(ctx, repoPath, sha, sizeLimit)]: the returned pair and the
    process as the call leaves it. *)
Definition GetBlob (repoPath : string) (sha : string) (sizeLimit : Z)
  : Result BlobReader * Batch :=
  let p0 := CatFileBatch repoPath in
  let '(werr, p1) := stdin_Write (sha ++ LF)%string p0 in
  match werr with
  | Some err =>
      (inl (fmt_Errorf_w "failed to write blob sha to git stdin: " err), cancel p1)
  | None =>
      let '(header, rest) := ReadBatchHeaderLine (stdout_pending p1) in
      let p2 := set_stdout rest p1 in
      match header with
      | inl err =>
          (inl (processGitErrorf err "failed to read cat-file batch line"), cancel p2)
      | inr (objectSHA, objectType, objectSize) =>
          if negb (String.eqb objectSHA sha) then
            (inl (errorString
                    ("cat-file returned object sha '" ++ objectSHA
                     ++ "' but expected '" ++ sha ++ "'")%string),
             cancel p2)
          else if negb (String.eqb objectType GitObjectTypeBlob) then
            (inl (errors_InvalidArgument
                    ("cat-file returned object type '" ++ objectType
                     ++ "' but expected '" ++ GitObjectTypeBlob ++ "'")%string),
             cancel p2)
          else
            let contentSize :=
              if ((sizeLimit >? 0) && (sizeLimit <? objectSize))%Z
              then sizeLimit else objectSize in
            (inr {| SHA := sha;
                    Size := objectSize;
                    ContentSize := contentSize;
                    Content := newLimitReaderCloser contentSize cancel |},
             p2)
      end
  end.

(** The process once [GetBlob] has written its request, and the header line
    [GetBlob] reads next with what follows it on stdout. *)
Definition started (repoPath sha : string) : Batch :=
  snd (stdin_Write (sha ++ LF)%string (CatFileBatch repoPath)).

Definition header (repoPath : string)
  : Result (string * string * Z) * list Byte.byte :=
  ReadBatchHeaderLine (stdout_pending (CatFileBatch repoPath)).

End GetBlob.

(** A caller that reads the [Content] stream into a buffer of [k] bytes, Read
    after Read, until a Read answers with an error ([io.EOF] at the end of the
    stream) or [fuel] Reads were made.  It returns the bytes read, whether the
    end of the stream was seen, and the stream and the process afterwards. *)
Fixpoint readAll (fuel : nat) (k : nat) (l : limitReaderCloser) (p : Batch)
  : list Byte.byte * bool * limitReaderCloser * Batch :=
  match fuel with
  | O => ([], false, l, p)
  | S fuel' =>
      let '(bytes, err, l', p') := limitReaderCloser_Read l k p in
      match err with
      | Some _ => (bytes, true, l', p')
      | None =>
          let '(more, eof, l'', p'') := readAll fuel' k l' p' in
          (bytes ++ more, eof, l'', p'')
      end
  end.

(** A caller that makes the Reads of [ks] (one buffer size per Read) and
    stops, wherever the stream is then. *)
Fixpoint readSome (ks : list nat) (l : limitReaderCloser) (p : Batch)
  : list Byte.byte * limitReaderCloser * Batch :=
  match ks with
  | [] => ([], l, p)
  | k :: ks' =>
      let '(bytes, _, l', p') := limitReaderCloser_Read l k p in
      let '(more, l'', p'') := readSome ks' l' p' in
      (bytes ++ more, l'', p'')
  end.

End Blob.

(* ================================================================== *)
(** ** Reading the call log *)
(* ================================================================== *)

Module GateLog.
Import Githook.

Section Log.
Context {T : GitTypes}.

Definition isGetBaseSHA (c : Call) : bool :=
  match c with CallGetBaseSHA _ _ _ _ _ => true | _ => false end.

Definition isScanSecrets (c : Call) : bool :=
  match c with CallScanSecrets _ _ => true | _ => false end.

(** How many calls of the fallback discovery and of the scan a log holds. *)
Definition fallbackCalls (l : list Call) : nat := length (filter isGetBaseSHA l).
Definition scanCalls (l : list Call) : nat := length (filter isScanSecrets l).

(** The parameters of the scan calls of a log, in order. *)
Fixpoint scansOf (l : list Call) : list ScanSecretsParams :=
  match l with
  | [] => []
  | CallScanSecrets p _ :: l' => p :: scansOf l'
  | _ :: l' => scansOf l'
  end.

(** What the fallback discovery answered when it did not fail, in order. *)
Fixpoint fallbackAnswers (l : list Call) : list (SHA * bool) :=
  match l with
  | [] => []
  | CallGetBaseSHA _ _ _ _ (inr a) :: l' => a :: fallbackAnswers l'
  | _ :: l' => fallbackAnswers l'
  end.

(** The findings the scan calls of a log returned, in order. *)
Fixpoint foundIn (l : list Call) : list Finding :=
  match l with
  | [] => []
  | CallScanSecrets _ (inr o) :: l' => Findings o ++ foundIn l'
  | _ :: l' => foundIn l'
  end.

(** The error a failed call of the fallback discovery or of the scan
    answered with. *)
Definition failedWith (c : Call) : option error :=
  match c with
  | CallGetBaseSHA _ _ _ _ (inl e) => Some e
  | CallScanSecrets _ (inl e) => Some e
  | _ => None
  end.

(** The error any failed call answered with, the settings lookup included. *)
Definition answeredError (c : Call) : option error :=
  match c with
  | CallRepoGet _ _ _ (inl e) => Some e
  | _ => failedWith c
  end.

(** A deletion: [refUpdate.New.String() == types.NilSHA]. *)
Definition isDeletion (u : ReferenceUpdate) : bool :=
  String.eqb (SHA_String (New u)) NilSHA.

(** The updates of a push that are not deletions. *)
Definition live (us : list ReferenceUpdate) : list ReferenceUpdate :=
  filter (fun u => negb (isDeletion u)) us.

Definition scanParams (repo : Repository) (in_ : GithookPreReceiveInput)
    (baseRev rev : string) : ScanSecretsParams :=
  {| params_ReadParams :=
       {| RepoUID := GitUID repo;
          read_AlternateObjectDirs := AlternateObjectDirs (input_Environment in_) |};
     BaseRev := baseRev;
     Rev := rev |}.

(** The revision expression [<id>^{commit}]. *)
Definition commitRev (id : SHA) : string := (SHA_String id ++ "^{commit}")%string.

(** The scan of an update when the fallback base of the push is [fb]. *)
Definition plannedScan (repo : Repository) (in_ : GithookPreReceiveInput)
    (fb : string) (u : ReferenceUpdate) : ScanSecretsParams :=
  scanParams repo in_
    (if SHA_IsNil (Old u) then fb else commitRev (Old u))
    (commitRev (New u)).

(** The loop variable [res] after a scan call answered [o]. *)
Definition collect (res : scanSecretsResult) (o : ScanSecretsOutput)
  : scanSecretsResult :=
  if Nat.eqb (length (Findings o)) 0 then res
  else {| findings := findings res ++ Findings o |}.

(** The loop variables after the scan call of a turn answered [a], or the
    error the turn returns with. *)
Definition afterScan (fb : option string) (res : scanSecretsResult)
    (a : Result ScanSecretsOutput) : Result (option string * scanSecretsResult) :=
  match a with
  | inl err => inl (fmt_Errorf_w "failed to detect secret leaks: " err)
  | inr o => inr (fb, collect res o)
  end.

(** A created reference that the loop scans: not a deletion, and
    [refUpdate.Old.IsNil()]. *)
Definition isCreation (u : ReferenceUpdate) : bool :=
  negb (isDeletion u) && SHA_IsNil (Old u).

(** The text the source puts before the error of a failed call. *)
Definition phase (c : Call) : string :=
  match c with
  | CallRepoGet _ _ _ _ =>
      "failed to check settings whether secret scanning is enabled: "
  | CallGetBaseSHA _ _ _ _ _ => "failed to get fallback sha: "
  | CallScanSecrets _ _ => "failed to detect secret leaks: "
  end.

(** The error [scanSecrets] returns when the call [c] answered with [e]. *)
Definition reported (c : Call) (e : error) : error :=
  match c with
  | CallRepoGet _ _ _ _ => fmt_Errorf_w (phase c) e
  | _ => fmt_Errorf_w "failed to scan for git leaks: " (fmt_Errorf_w (phase c) e)
  end.

(** The value of [baseRevFallBack] after the calls of [l], when it was [fb]
    before them. *)
Definition memoAfter (fb : option string) (l : list Call) : option string :=
  match fb with
  | Some b => Some b
  | None =>
      match fallbackAnswers l with
      | a :: _ => Some (fallbackRev a)
      | [] => None
      end
  end.

End Log.

Section Render.
Context {T : GitTypes} {C : Collaborators}.

(** The settings lookup [scanSecrets] starts with, and its log entry. *)
Definition lookup (repo : Repository) (w : World) : Result bool * World :=
  settings_RepoGet (ID repo) KeySecretScanningEnabled DefaultSecretScanningEnabled w.

Definition lookedUp (repo : Repository) (answer : Result bool) : Call :=
  CallRepoGet (ID repo) KeySecretScanningEnabled DefaultSecretScanningEnabled answer.

(** The [Output] of a blocked push: the printed findings, two empty
    messages, and the blocking error. *)
Definition blockedOutput (output : Output) (fs : list Finding) : Output :=
  {| Messages :=
       Messages (printScanSecretsFindings output fs) ++ [EmptyString; EmptyString];
     Error := Some "Changes blocked by security scan results" |}.

End Render.
End GateLog.

(* ================================================================== *)
(** ** Concrete pushes and backends *)
(* ================================================================== *)

Module Demo.
Import Githook GateLog.

Definition zeros : string := "0000000000000000000000000000000000000000".
Definition idA : string := "aaaaaaaaaaaaaaaaaaaaaaaaaaaaaaaaaaaaaaaa".
Definition idB : string := "bbbbbbbbbbbbbbbbbbbbbbbbbbbbbbbbbbbbbbbb".
Definition idC : string := "cccccccccccccccccccccccccccccccccccccccc".
Definition idD : string := "dddddddddddddddddddddddddddddddddddddddd".
Definition idE : string := "eeeeeeeeeeeeeeeeeeeeeeeeeeeeeeeeeeeeeeee".

(** Object ids as their hexadecimal strings, findings as their text. *)
Definition hexTypes : GitTypes :=
  {| SHA := string;
     SHA_String := fun s => s;
     SHA_IsNil := fun s => String.eqb s zeros;
     NilSHA := zeros;
     Finding := string |}.

#[local] Existing Instance hexTypes.

Definition printLines (output : Output) (fs : list string) : Output :=
  {| Messages := Messages output ++ map (fun f => ("secret: " ++ f)%string) fs;
     Error := Error output |}.

(** Collaborators with fixed answers; the world counts the calls made. *)
Definition fixedCollaborators
    (setting : Result bool)
    (fallback : Result (string * bool))
    (scan : ScanSecretsParams -> Result ScanSecretsOutput)
  : Collaborators :=
  {| World := nat;
     KeySecretScanningEnabled := "secret_scanning_enabled";
     DefaultSecretScanningEnabled := false;
     settings_RepoGet := fun _ _ _ w => (setting, S w);
     GetBaseSHAForScanningChanges := fun _ _ _ _ w => (fallback, S w);
     rgit_ScanSecrets := fun p w => (scan p, S w);
     printScanSecretsFindings := printLines |}.

Definition noFindings (p : ScanSecretsParams)
  : Result ScanSecretsOutput :=
  inr {| Findings := [] |}.

(** Two findings in whatever is scanned up to [idB], none elsewhere. *)
Definition leaksInB (p : ScanSecretsParams)
  : Result ScanSecretsOutput :=
  if String.eqb (Rev p) (idB ++ "^{commit}")%string
  then inr {| Findings := ["config.yml: api key"; "deploy.sh: password"] |}
  else inr {| Findings := [] |}.

Definition scanBroken (p : ScanSecretsParams)
  : Result ScanSecretsOutput :=
  inl (errorString "exit status 128").

Definition repo1 : Repository := {| ID := 7; GitUID := "repo-uid" |}.

Definition env1 : Environment :=
  {| AlternateObjectDirs := ["objects/incoming-1"] |}.

Definition updateMain : ReferenceUpdate :=
  {| Ref := "refs/heads/main"; Old := idA; New := idB |}.
Definition createFeature : ReferenceUpdate :=
  {| Ref := "refs/heads/feature"; Old := zeros; New := idC |}.
Definition createFeature2 : ReferenceUpdate :=
  {| Ref := "refs/heads/feature2"; Old := zeros; New := idE |}.
Definition deleteOldFeature : ReferenceUpdate :=
  {| Ref := "refs/heads/old-feature"; Old := idD; New := zeros |}.

Definition push (us : list ReferenceUpdate)
  : GithookPreReceiveInput :=
  {| input_Environment := env1; RefUpdates := us |}.

Definition emptyOutput : Output := {| Messages := []; Error := None |}.

Definition noResult : scanSecretsResult := {| findings := [] |}.

(** Scanning enabled, fallback [idD], nothing found. *)
Definition quiet : Collaborators :=
  fixedCollaborators (inr true) (inr (idD, true)) noFindings.

(** Scanning enabled, fallback [idD], two findings up to [idB]. *)
Definition leaky : Collaborators :=
  fixedCollaborators (inr true) (inr (idD, true)) leaksInB.

(** Scanning disabled. *)
Definition disabled : Collaborators :=
  fixedCollaborators (inr false) (inr (idD, true)) leaksInB.

(** The settings service is down. *)
Definition settingsDown : Collaborators :=
  fixedCollaborators (inl (errorString "connection refused")) (inr (idD, true)) leaksInB.

(** The scan fails. *)
Definition scanDown : Collaborators :=
  fixedCollaborators (inr true) (inr (idD, true)) scanBroken.

(** Scanning enabled, no fallback available (the id that comes with the
    answer is not to be used), nothing found. *)
Definition rootless : Collaborators :=
  fixedCollaborators (inr true) (inr (idD, false)) noFindings.

(** A push that creates two branches, updates one and deletes one. *)
Definition pushAll : GithookPreReceiveInput :=
  push [createFeature; updateMain; deleteOldFeature; createFeature2].

(** What follows the first line feed of a byte sequence. *)
Fixpoint afterLine (bs : list Byte.byte) : list Byte.byte :=
  match bs with
  | [] => []
  | b :: bs' => if Byte.eqb b Byte.x0a then bs' else afterLine bs'
  end.

(** A backend whose process was started with [out] on its stdout and whose
    header line parses to [header]. *)
Definition fixedBackend (broken : option error)
    (header : Result (string * string * Z)) (out : list Byte.byte)
  : Blob.Backend :=
  {| Blob.CatFileBatch := fun _ =>
       {| Blob.stdin_broken := broken;
          Blob.stdin_written := [];
          Blob.stdout_pending := out;
          Blob.cancels := 0 |};
     Blob.ReadBatchHeaderLine := fun bs => (header, afterLine bs);
     Blob.processGitErrorf := fun _ msg => statusError (StatusOther "internal") msg;
     Blob.GitObjectTypeBlob := "blob" |}.

(** A header line (abridged) and the seven bytes of the object "secret". *)
Definition sevenBytes : list Byte.byte :=
  [Byte.x68; Byte.x0a;
   Byte.x73; Byte.x65; Byte.x63; Byte.x72; Byte.x65; Byte.x74; Byte.x0a].

Definition blobBackend : Blob.Backend :=
  fixedBackend None (inr (idA, "blob", 7%Z)) sevenBytes.

(** The process answers for another object than the one asked for. *)
Definition desyncBackend : Blob.Backend :=
  fixedBackend None (inr (idB, "blob", 7%Z)) sevenBytes.

(** The process answers for another object, which is a tree. *)
Definition desyncTreeBackend : Blob.Backend :=
  fixedBackend None (inr (idB, "tree", 7%Z)) sevenBytes.

(** The object asked for is a tree. *)
Definition treeBackend : Blob.Backend :=
  fixedBackend None (inr (idA, "tree", 7%Z)) sevenBytes.

(** The process dies after three of the seven bytes it declared. *)
Definition shortBackend : Blob.Backend :=
  fixedBackend None (inr (idA, "blob", 7%Z))
    [Byte.x68; Byte.x0a; Byte.x73; Byte.x65; Byte.x63].

(** The process is gone: writing to its stdin fails. *)
Definition brokenPipeBackend : Blob.Backend :=
  fixedBackend (Some (errorString "write |1: broken pipe"))
    (inl (errorString "EOF")) [].

End Demo.

(* ================================================================== *)
(** ** Properties of [scanSecrets] and [scanSecretsInternal] *)
(* ================================================================== *)

Module GateProps.
Import Githook GateLog.

Section Claims.
Context {T : GitTypes} {C : Collaborators}.
Variable repo : Repository.
Variable in_ : GithookPreReceiveInput.

Ltac run_turn :=
  unfold scanRefUpdate, resolveBaseRev, bind, ret, call_ScanSecrets,
    call_GetBaseSHA, isDeletion, plannedScan, scanParams, commitRev,
    afterScan, collect in *.

Lemma turn_deletion fb res u w :
  isDeletion u = true ->
  scanRefUpdate repo in_ fb res u w = (inr (fb, res), [], w).
Proof.
  run_turn. intros ->. reflexivity.
Qed.

Lemma turn_existing fb res u w x :
  isDeletion u = false ->
  SHA_IsNil (Old u) = false ->
  scanRefUpdate repo in_ fb res u w =
    let '(a, w') := rgit_ScanSecrets (plannedScan repo in_ x u) w in
    (afterScan fb res a, [CallScanSecrets (plannedScan repo in_ x u) a], w').
Proof.
  run_turn. intros -> ->. simpl.
  destruct (rgit_ScanSecrets _ w) as [[e | o] w']; simpl; [reflexivity |].
  destruct (Nat.eqb _ 0); reflexivity.
Qed.

Lemma turn_memo b res u w :
  isDeletion u = false ->
  SHA_IsNil (Old u) = true ->
  scanRefUpdate repo in_ (Some b) res u w =
    let '(a, w') := rgit_ScanSecrets (plannedScan repo in_ b u) w in
    (afterScan (Some b) res a, [CallScanSecrets (plannedScan repo in_ b u) a], w').
Proof.
  run_turn. intros -> ->. simpl.
  destruct (rgit_ScanSecrets _ w) as [[e | o] w']; simpl; [reflexivity |].
  destruct (Nat.eqb _ 0); reflexivity.
Qed.

Lemma turn_fresh res u w :
  isDeletion u = false ->
  SHA_IsNil (Old u) = true ->
  scanRefUpdate repo in_ None res u w =
    let '(r, w1) :=
      GetBaseSHAForScanningChanges repo (input_Environment in_) (RefUpdates in_) u w in
    let asked := CallGetBaseSHA repo (input_Environment in_) (RefUpdates in_) u r in
    match r with
    | inl err => (inl (fmt_Errorf_w "failed to get fallback sha: " err), [asked], w1)
    | inr answer =>
        let '(a, w2) := rgit_ScanSecrets (plannedScan repo in_ (fallbackRev answer) u) w1 in
        (afterScan (Some (fallbackRev answer)) res a,
         [asked; CallScanSecrets (plannedScan repo in_ (fallbackRev answer) u) a], w2)
    end.
Proof.
  run_turn. intros -> ->. simpl.
  destruct (GetBaseSHAForScanningChanges _ _ _ _ w) as [[e | answer] w1]; simpl;
    [reflexivity |].
  destruct (rgit_ScanSecrets _ w1) as [[e | o] w2]; simpl; [reflexivity |].
  destruct (Nat.eqb _ 0); reflexivity.
Qed.

Lemma scanLoop_cons u us fb res w :
  scanLoop repo in_ (u :: us) fb res w =
    let '(r, l1, w1) := scanRefUpdate repo in_ fb res u w in
    match r with
    | inl err => (inl err, l1 ++ [], w1)
    | inr (fb', res') =>
        let '(r2, l2, w2) := scanLoop repo in_ us fb' res' w1 in
        (r2, l1 ++ l2, w2)
    end.
Proof.
  simpl. unfold bind.
  destruct (scanRefUpdate repo in_ fb res u w) as [[[e | [fb' res']] l1] w1];
    reflexivity.
Qed.

(** Case analysis on one turn of the loop: the turn is rewritten to what it
    does, and the collaborators' answers are named. *)
Ltac turn u fb :=
  rewrite scanLoop_cons;
  let Hd := fresh "Hdel" in
  let Hn := fresh "Hnil" in
  destruct (isDeletion u) eqn:Hd;
  [ rewrite turn_deletion by exact Hd
  | destruct (SHA_IsNil (Old u)) eqn:Hn;
    [ destruct fb as [?b | ];
      [ rewrite turn_memo by assumption
      | rewrite turn_fresh by assumption;
        destruct (GetBaseSHAForScanningChanges repo (input_Environment in_)
                    (RefUpdates in_) u _) as [[?e | ?answer] ?w] ]
    | rewrite (turn_existing _ _ _ _ EmptyString) by assumption ] ];
  try match goal with
      | |- context [rgit_ScanSecrets ?p ?w] =>
          destruct (rgit_ScanSecrets p w) as [[?e | ?o] ?w]
      end;
  cbn [afterScan app].

Lemma scanLoop_fallbackCalls us : forall fb res w,
  let '(_, calls, _) := scanLoop repo in_ us fb res w in
  fallbackCalls calls <= match fb with Some _ => 0 | None => 1 end.
Proof.
  induction us as [| u us IH]; intros fb res w.
  - simpl. destruct fb; unfold fallbackCalls; simpl; lia.
  - turn u fb.
    all: try (unfold fallbackCalls; simpl; try destruct fb; lia).
    all: match goal with
         | |- context [scanLoop repo in_ ?l ?f ?r ?w'] =>
             specialize (IH f r w');
             destruct (scanLoop repo in_ l f r w') as [[r2 l2] w2]
         end.
    all: unfold fallbackCalls in *; simpl in *; try destruct fb; lia.
Qed.

Lemma plannedScan_existing u x y :
  SHA_IsNil (Old u) = false ->
  plannedScan repo in_ x u = plannedScan repo in_ y u.
Proof.
  unfold plannedScan. intros ->. reflexivity.
Qed.

Lemma live_cons_deletion u us :
  isDeletion u = true -> live (u :: us) = live us.
Proof.
  unfold live. simpl. intros ->. reflexivity.
Qed.

Lemma live_cons_kept u us :
  isDeletion u = false -> live (u :: us) = u :: live us.
Proof.
  unfold live. simpl. intros ->. reflexivity.
Qed.

(** The scans a run of the loop makes are those planned, with one and the
    same fallback base [fb], for the first live updates of the list: all of
    them when the loop runs to its end. *)
Lemma scanLoop_scans us : forall fb0 res w,
  let '(r, calls, _) := scanLoop repo in_ us fb0 res w in
  exists fb,
    (forall b, fb0 = Some b -> fb = b) /\
    (forall a, In a (fallbackAnswers calls) -> fb = fallbackRev a) /\
    exists done rest,
      live us = done ++ rest /\
      scansOf calls = map (plannedScan repo in_ fb) done /\
      (forall res', r = inr res' -> rest = []).
Proof.
  induction us as [| u us IH]; intros fb0 res w.
  - simpl. exists (match fb0 with Some b => b | None => EmptyString end).
    split; [intros b ->; reflexivity |].
    split; [intros a [] |].
    exists [], []. repeat split; reflexivity.
  - turn u fb0.
    all: try match goal with
         | |- context [scanLoop repo in_ ?l ?f ?r ?w'] =>
             specialize (IH f r w');
             destruct (scanLoop repo in_ l f r w') as [[r2 l2] w2];
             destruct IH as (fb & Hmemo & Hans & done & rest & Hlive & Hscans & Hend)
         end.
    + (* a deletion *)
      exists fb. repeat split; auto.
      exists done, rest. rewrite live_cons_deletion by assumption. auto.
    + (* memo set, the scan fails *)
      exists b. split; [intros ? [= <-]; reflexivity |].
      split; [intros a [] |].
      exists [u], (live us). rewrite live_cons_kept by assumption.
      repeat split; try reflexivity. intros ? [=].
    + (* memo set, the scan succeeds *)
      pose proof (Hmemo b eq_refl) as ->.
      exists b. split; [intros ? [= <-]; reflexivity |].
      split; [exact Hans |].
      exists (u :: done), rest. rewrite live_cons_kept by assumption.
      simpl. rewrite Hlive, Hscans. auto.
    + (* memo unset, the discovery fails *)
      exists EmptyString. split; [intros ? [=] |].
      split; [intros a [] |].
      exists [], (live (u :: us)). repeat split; try reflexivity. intros ? [=].
    + (* memo unset, the discovery answers, the scan fails *)
      exists (fallbackRev answer). split; [intros ? [=] |].
      split; [intros a [<- | []]; reflexivity |].
      exists [u], (live us). rewrite live_cons_kept by assumption.
      repeat split; try reflexivity. intros ? [=].
    + (* memo unset, the discovery answers, the scan succeeds *)
      pose proof (Hmemo _ eq_refl) as ->.
      exists (fallbackRev answer). split; [intros ? [=] |].
      split; [intros a [<- | Ha]; [reflexivity | exact (Hans a Ha)] |].
      exists (u :: done), rest. rewrite live_cons_kept by assumption.
      simpl. rewrite Hlive, Hscans. auto.
    + (* an existing reference, the scan fails *)
      exists (match fb0 with Some b => b | None => EmptyString end).
      split; [intros b ->; reflexivity |].
      split; [intros a [] |].
      exists [u], (live us). rewrite live_cons_kept by assumption.
      repeat split; try (intros ? [=]); try reflexivity.
      simpl. f_equal. apply plannedScan_existing; assumption.
    + (* an existing reference, the scan succeeds *)
      exists fb. split; [exact Hmemo |].
      split; [exact Hans |].
      exists (u :: done), rest. rewrite live_cons_kept by assumption.
      simpl. rewrite Hlive, Hscans.
      rewrite (plannedScan_existing u EmptyString fb) by assumption. auto.
Qed.

Lemma collect_findings res o :
  findings (collect res o) = findings res ++ Findings o.
Proof.
  unfold collect. destruct (Findings o) as [| f fs]; simpl.
  - rewrite app_nil_r. reflexivity.
  - reflexivity.
Qed.

(** How a run of the loop ends: with every call answered and the findings
    of all scans appended to [res] in order, or at the first failed call, whose
    error it returns wrapped. *)
Lemma scanLoop_outcome us : forall fb res w,
  let '(r, calls, _) := scanLoop repo in_ us fb res w in
  match r with
  | inr res' =>
      findings res' = findings res ++ foundIn calls /\
      Forall (fun c => failedWith c = None) calls
  | inl err =>
      exists before c e msg,
        calls = before ++ [c] /\
        Forall (fun c => failedWith c = None) before /\
        failedWith c = Some e /\
        err = wrapError msg e
  end.
Proof.
  induction us as [| u us IH]; intros fb res w.
  - simpl. rewrite app_nil_r. split; [reflexivity | constructor].
  - turn u fb.
    all: try match goal with
         | |- context [scanLoop repo in_ ?l ?f ?r ?w'] =>
             specialize (IH f r w');
             destruct (scanLoop repo in_ l f r w') as [[[err | res'] l2] w2];
             [ destruct IH as (before & c & e' & msg & Hcalls & Hok & Hc & Herr)
             | destruct IH as [Hfound Hok] ]
         end.
    all: try rewrite collect_findings in *.
    all: try match goal with
         | Hcalls : ?l2 = ?before ++ [?c] |- exists _ _ _ _, ?pre :: ?pre2 :: ?l2 = _ /\ _ =>
             exists (pre :: pre2 :: before), c, e', msg; rewrite Hcalls;
             repeat split; auto; repeat constructor; auto
         | Hcalls : ?l2 = ?before ++ [?c] |- exists _ _ _ _, ?pre :: ?l2 = _ /\ _ =>
             exists (pre :: before), c, e', msg; rewrite Hcalls;
             repeat split; auto; repeat constructor; auto
         | Hcalls : ?l2 = ?before ++ [?c] |- exists _ _ _ _, ?l2 = _ /\ _ =>
             exists before, c, e', msg; auto
         end.
    all: try match goal with
         | |- exists _ _ _ _, [?c1; ?c] = _ /\ _ =>
             exists [c1], c; do 2 eexists; repeat split;
             try reflexivity; repeat constructor
         | |- exists _ _ _ _, [?c] = _ /\ _ =>
             exists [], c; do 2 eexists; repeat split;
             try reflexivity; repeat constructor
         end.
    all: try (split; [ simpl; rewrite Hfound, ?app_assoc; reflexivity
                     | repeat constructor; auto ]).
Qed.

(** The loop calls the fallback discovery and the scan, never the settings
    service. *)
Lemma scanLoop_calls us : forall fb res w,
  let '(_, calls, _) := scanLoop repo in_ us fb res w in
  Forall (fun c => isGetBaseSHA c || isScanSecrets c = true) calls.
Proof.
  induction us as [| u us IH]; intros fb res w.
  - simpl. constructor.
  - turn u fb.
    all: try match goal with
         | |- context [scanLoop repo in_ ?l ?f ?r ?w'] =>
             specialize (IH f r w');
             destruct (scanLoop repo in_ l f r w') as [[r2 l2] w2]
         end.
    all: repeat constructor; auto.
Qed.

(** [scanSecrets], step by step. *)
Lemma scanSecrets_run output w :
  scanSecrets repo in_ output w =
    let '(s, w1) := lookup repo w in
    match s with
    | inl err =>
        ((output,
          Some (fmt_Errorf_w
                  "failed to check settings whether secret scanning is enabled: " err)),
         [lookedUp repo s], w1)
    | inr false => ((output, None), [lookedUp repo s], w1)
    | inr true =>
        let '(r, calls, w2) := scanSecretsInternal repo in_ w1 in
        match r with
        | inl err =>
            ((output, Some (fmt_Errorf_w "failed to scan for git leaks: " err)),
             lookedUp repo s :: calls, w2)
        | inr scanResult =>
            ((if HasResults scanResult
              then blockedOutput output (findings scanResult) else output, None),
             lookedUp repo s :: calls, w2)
        end
    end.
Proof.
  unfold scanSecrets, bind, call_RepoGet, lookup, lookedUp, blockedOutput, ret.
  destruct (settings_RepoGet _ _ _ w) as [[e | [|]] w1]; simpl; try reflexivity.
  destruct (scanSecretsInternal repo in_ w1) as [[[e | res] calls] w2]; simpl.
  - rewrite app_nil_r. reflexivity.
  - destruct (HasResults res); simpl; rewrite app_nil_r; reflexivity.
Qed.

Lemma HasResults_nonempty (r : scanSecretsResult) :
  HasResults r = true <-> findings r <> [].
Proof.
  unfold HasResults, Nat.ltb. destruct (findings r); simpl; split; congruence.
Qed.

Lemma scanSecretsInternal_outcome w :
  let '(r, calls, _) := scanSecretsInternal repo in_ w in
  match r with
  | inr res =>
      findings res = foundIn calls /\
      Forall (fun c => failedWith c = None) calls
  | inl err =>
      exists before c e msg,
        calls = before ++ [c] /\
        Forall (fun c => failedWith c = None) before /\
        failedWith c = Some e /\
        err = wrapError msg e
  end.
Proof.
  unfold scanSecretsInternal.
  exact (scanLoop_outcome (RefUpdates in_) None {| findings := [] |} w).
Qed.

(** *** The claims about [scanSecretsInternal] *)

(** C1: during [scanSecretsInternal] the fallback discovery
    [GetBaseSHAForScanningChanges] is called at most once, however many
    updates of the push create a reference; and there is one fallback base
    [fb], the answer of that call when it was made and answered (an id when a
    fallback is available, the empty revision when none is), with which every
    scan of a created reference is made: the scans of the run are the planned
    scans, with [fb], of the first live updates, of all of them when the run
    succeeds. *)
Theorem fallback_discovery_at_most_once (w : World) :
  let '(r, calls, _) := scanSecretsInternal repo in_ w in
  fallbackCalls calls <= 1 /\
  exists fb,
    (forall a, In a (fallbackAnswers calls) -> fb = fallbackRev a) /\
    exists done rest,
      live (RefUpdates in_) = done ++ rest /\
      scansOf calls = map (plannedScan repo in_ fb) done /\
      (forall res, r = inr res -> rest = []).
Proof.
  unfold scanSecretsInternal.
  pose proof (scanLoop_fallbackCalls (RefUpdates in_) None {| findings := [] |} w) as Hcount.
  pose proof (scanLoop_scans (RefUpdates in_) None {| findings := [] |} w) as Hscans.
  destruct (scanLoop repo in_ (RefUpdates in_) None {| findings := [] |} w)
    as [[r calls] w'].
  split; [exact Hcount |].
  destruct Hscans as (fb & _ & Hans & done & rest & Hlive & Hmap & Hend).
  exists fb. split; [exact Hans |].
  exists done, rest. auto.
Qed.

(** C2 (amended): in the turn of the loop for an update that is not a
    deletion, the scan is called with the revision expressions
    [<old>^{commit}] and [<new>^{commit}] when the old id is not nil; for a
    created reference it is called with the fallback base as it is (the id
    [D] the discovery answered in this turn, or the memoized base) and
    [<new>^{commit}]. *)
Theorem scan_range_of_turn fb res u w
    (Hlive : isDeletion u = false) :
  let '(_, calls, _) := scanRefUpdate repo in_ fb res u w in
  (SHA_IsNil (Old u) = false ->
   exists a,
     calls = [CallScanSecrets
                (scanParams repo in_
                   (SHA_String (Old u) ++ "^{commit}")%string
                   (SHA_String (New u) ++ "^{commit}")%string) a]) /\
  (SHA_IsNil (Old u) = true -> fb = None ->
   forall D w1,
     GetBaseSHAForScanningChanges repo (input_Environment in_) (RefUpdates in_) u w
       = (inr (D, true), w1) ->
     exists a,
       calls = [CallGetBaseSHA repo (input_Environment in_) (RefUpdates in_) u
                  (inr (D, true));
                CallScanSecrets
                  (scanParams repo in_ (SHA_String D)
                     (SHA_String (New u) ++ "^{commit}")%string) a]) /\
  (SHA_IsNil (Old u) = true ->
   forall b, fb = Some b ->
     exists a,
       calls = [CallScanSecrets
                  (scanParams repo in_ b
                     (SHA_String (New u) ++ "^{commit}")%string) a]).
Proof.
  destruct (SHA_IsNil (Old u)) eqn:Hnil.
  - destruct fb as [b |].
    + rewrite turn_memo by assumption.
      destruct (rgit_ScanSecrets _ w) as [a w'].
      unfold plannedScan, commitRev. rewrite Hnil.
      repeat split; try discriminate.
      intros _ b' [= <-]. exists a. reflexivity.
    + rewrite turn_fresh by assumption.
      destruct (GetBaseSHAForScanningChanges _ _ _ u w) as [[e | answer] w1].
      * repeat split; discriminate.
      * destruct (rgit_ScanSecrets _ w1) as [a w2].
        unfold plannedScan, commitRev. rewrite Hnil.
        repeat split; try discriminate.
        intros _ _ D w3 [= -> _]. exists a. reflexivity.
  - rewrite (turn_existing fb res u w EmptyString) by assumption.
    destruct (rgit_ScanSecrets _ w) as [a w'].
    unfold plannedScan, commitRev. rewrite Hnil.
    repeat split; try discriminate.
    intros _. exists a. reflexivity.
Qed.

(** C5: the turn of the loop for a deletion (new id [NilSHA]) calls neither
    the scan nor the fallback discovery and leaves the loop variables as they
    were; a run of the loop is the run over the live updates alone; and a push
    of deletions only makes no call at all. *)
Theorem deletions_are_skipped :
  (forall fb res u w,
     SHA_String (New u) = NilSHA ->
     scanRefUpdate repo in_ fb res u w = (inr (fb, res), [], w)) /\
  (forall us fb res w,
     scanLoop repo in_ us fb res w = scanLoop repo in_ (live us) fb res w) /\
  (forall w,
     Forall (fun u => SHA_String (New u) = NilSHA) (RefUpdates in_) ->
     scanSecretsInternal repo in_ w = (inr {| findings := [] |}, [], w)).
Proof.
  assert (Hturn : forall fb res u w,
            SHA_String (New u) = NilSHA ->
            scanRefUpdate repo in_ fb res u w = (inr (fb, res), [], w)).
  { intros fb res u w Hnew. apply turn_deletion.
    unfold isDeletion. apply String.eqb_eq. exact Hnew. }
  assert (Hloop : forall us fb res w,
            scanLoop repo in_ us fb res w = scanLoop repo in_ (live us) fb res w).
  { induction us as [| u us IH]; intros fb res w; [reflexivity |].
    destruct (isDeletion u) eqn:Hdel.
    - rewrite live_cons_deletion, scanLoop_cons, turn_deletion by assumption.
      rewrite <- IH.
      destruct (scanLoop repo in_ us fb res w) as [[r l] w']. reflexivity.
    - rewrite live_cons_kept by assumption. rewrite !scanLoop_cons.
      destruct (scanRefUpdate repo in_ fb res u w) as [[[e | [fb' res']] l1] w1];
        [reflexivity |].
      rewrite <- IH. reflexivity. }
  split; [exact Hturn |]. split; [exact Hloop |].
  intros w Hall.
  unfold scanSecretsInternal. rewrite Hloop.
  replace (live (RefUpdates in_)) with (@nil ReferenceUpdate); [reflexivity |].
  symmetry. induction Hall as [| u us Hu _ IH]; [reflexivity |].
  rewrite live_cons_deletion; [exact IH |].
  unfold isDeletion. apply String.eqb_eq. exact Hu.
Qed.

(** *** The claims about [scanSecrets] *)

(** C3: when scanning is enabled and the scan of the push succeeds with at
    least one finding, [scanSecrets] returns a nil error, sets [Output.Error]
    to the fixed text, and leaves in [Output.Messages] what the printer made of
    the findings followed by two empty messages; with a printer that appends
    the rendered findings, the messages are those on entry, the rendered
    findings and the two empty messages. *)
Theorem findings_block_through_output output w w1 res calls w2
    (Henabled : lookup repo w = (inr true, w1))
    (Hscan : scanSecretsInternal repo in_ w1 = (inr res, calls, w2))
    (Hfound : 1 <= length (findings res)) :
  exists output',
    scanSecrets repo in_ output w
      = ((output', None), lookedUp repo (inr true) :: calls, w2) /\
    Error output' = Some "Changes blocked by security scan results" /\
    Messages output'
      = Messages (printScanSecretsFindings output (findings res))
        ++ [EmptyString; EmptyString] /\
    findings res = foundIn calls /\
    (forall render : list Finding -> list string,
       (forall o fs, Messages (printScanSecretsFindings o fs) = Messages o ++ render fs) ->
       Messages output'
         = Messages output ++ render (findings res) ++ [EmptyString; EmptyString]).
Proof.
  exists (blockedOutput output (findings res)).
  rewrite scanSecrets_run, Henabled, Hscan.
  assert (Hres : HasResults res = true).
  { apply HasResults_nonempty. destruct (findings res); simpl in *; [lia | discriminate]. }
  rewrite Hres.
  repeat split.
  - pose proof (scanSecretsInternal_outcome w1) as H.
    rewrite Hscan in H. apply H.
  - intros render Hprint. simpl. rewrite Hprint, <- app_assoc. reflexivity.
Qed.

(** C6: when the setting resolves to false, [scanSecrets] returns a nil
    error at once: the settings lookup is its only call, and the [Output] is
    the one it was given. *)
Theorem disabled_setting_skips_scan output w w1
    (Hoff : lookup repo w = (inr false, w1)) :
  scanSecrets repo in_ output w
    = ((output, None), [lookedUp repo (inr false)], w1) /\
  fallbackCalls [lookedUp repo (inr false)] = 0 /\
  scanCalls [lookedUp repo (inr false)] = 0.
Proof.
  rewrite scanSecrets_run, Hoff. repeat split.
Qed.

(** C7: when the settings lookup fails, [scanSecrets] returns its error
    wrapped and has called neither the fallback discovery nor the scan; and
    when a call of the fallback discovery or of the scan fails, that call is
    the last one made, [scanSecrets] returns its error wrapped (twice), and
    the [Output] is untouched: no block is reported. *)
Theorem failures_abort_with_error output w :
  let '((output', err), calls, _) := scanSecrets repo in_ output w in
  (forall e w1,
     lookup repo w = (inl e, w1) ->
     err = Some (fmt_Errorf_w
                   "failed to check settings whether secret scanning is enabled: " e) /\
     Unwrap (fmt_Errorf_w
               "failed to check settings whether secret scanning is enabled: " e)
       = Some e /\
     calls = [lookedUp repo (inl e)] /\
     fallbackCalls calls = 0 /\ scanCalls calls = 0 /\
     output' = output) /\
  (forall c e,
     In c calls -> failedWith c = Some e ->
     (exists msg msg', err = Some (wrapError msg (wrapError msg' e))) /\
     (exists before, calls = before ++ [c]) /\
     output' = output).
Proof.
  rewrite scanSecrets_run.
  destruct (lookup repo w) as [[e0 | [|]] w1]; cbv beta iota.
  - split.
    + intros e w2 [= <- <-]. repeat split.
    + intros c e [<- | []]. discriminate.
  - pose proof (scanSecretsInternal_outcome w1) as H.
    destruct (scanSecretsInternal repo in_ w1) as [[[err | res] calls] w2];
      cbv beta iota; (split; [intros e w3 [=] |]).
    + destruct H as (before & c0 & e0 & msg & -> & Hok & Hc0 & ->).
      intros c e [<- | Hin] Hc; [discriminate |].
      apply in_app_or in Hin. destruct Hin as [Hin | [<- | []]].
      * rewrite Forall_forall in Hok. rewrite (Hok c Hin) in Hc. discriminate.
      * assert (e0 = e) as -> by congruence.
        repeat split.
        -- unfold fmt_Errorf_w. eauto.
        -- exists (lookedUp repo (inr true) :: before). reflexivity.
    + destruct H as [_ Hok].
      intros c e [<- | Hin] Hc; [discriminate |].
      rewrite Forall_forall in Hok. rewrite (Hok c Hin) in Hc. discriminate.
  - split; [intros e w2 [=] |].
    intros c e [<- | []]. discriminate.
Qed.

(** C9: [scanSecrets] leaves the [Output] as it was on entry unless
    scanning is enabled, every call succeeded and the scans returned at least
    one finding; in particular the [Output] is untouched when a call
    answered with an error, when the setting is off, and when the scans found
    nothing. *)
Theorem output_frame output w :
  let '((output', err), calls, _) := scanSecrets repo in_ output w in
  (output' = output \/
   (In (lookedUp repo (inr true)) calls /\
    Forall (fun c => answeredError c = None) calls /\
    foundIn calls <> [] /\
    err = None /\
    output' = blockedOutput output (foundIn calls))) /\
  (forall c e, In c calls -> answeredError c = Some e -> output' = output) /\
  (In (lookedUp repo (inr false)) calls -> output' = output) /\
  (foundIn calls = [] -> output' = output).
Proof.
  rewrite scanSecrets_run.
  destruct (lookup repo w) as [[e0 | [|]] w1]; cbv beta iota;
    try (repeat split; auto; fail).
  pose proof (scanSecretsInternal_outcome w1) as H.
  pose proof (scanLoop_calls (RefUpdates in_) None {| findings := [] |} w1) as Hcalls.
  fold (scanSecretsInternal repo in_ w1) in Hcalls.
  destruct (scanSecretsInternal repo in_ w1) as [[[err | res] calls] w2];
    cbv beta iota; try (repeat split; auto; fail).
  destruct H as [Hfound Hok].
  assert (Hfound' : foundIn (lookedUp repo (inr true) :: calls) = findings res).
  { simpl. symmetry. exact Hfound. }
  rewrite Forall_forall in Hcalls, Hok.
  destruct (HasResults res) eqn:Hres.
  - apply HasResults_nonempty in Hres.
    assert (Hall : forall c, In c (lookedUp repo (inr true) :: calls) ->
                             answeredError c = None).
    { intros c [<- | Hc]; [reflexivity |].
      specialize (Hcalls c Hc). specialize (Hok c Hc).
      destruct c; simpl in *; [discriminate | exact Hok | exact Hok]. }
    split; [| split; [| split]].
    + right. rewrite Hfound'. repeat split; auto.
      * left. reflexivity.
      * apply Forall_forall. exact Hall.
    + intros c e Hc He. rewrite (Hall c Hc) in He. discriminate.
    + intros [[=] | Hin]. specialize (Hcalls _ Hin). discriminate.
    + intros Hnone. rewrite Hfound' in Hnone. contradiction.
  - repeat split; auto.
Qed.

(** *** Further properties of the loop *)

Lemma isCreation_deletion u : isDeletion u = true -> isCreation u = false.
Proof. unfold isCreation. intros ->. reflexivity. Qed.

Lemma isCreation_existing u : SHA_IsNil (Old u) = false -> isCreation u = false.
Proof. unfold isCreation. intros ->. apply andb_false_r. Qed.

Lemma isCreation_created u :
  isDeletion u = false -> SHA_IsNil (Old u) = true -> isCreation u = true.
Proof. unfold isCreation. intros -> ->. reflexivity. Qed.

Lemma scanLoop_counts us : forall fb res w,
  let '(r, calls, _) := scanLoop repo in_ us fb res w in
  scanCalls calls <= length (live us) /\
  (existsb isCreation us = false -> fallbackCalls calls = 0) /\
  (forall res', r = inr res' ->
     scanCalls calls = length (live us) /\
     fallbackCalls calls
       = match fb with
         | Some _ => 0
         | None => if existsb isCreation us then 1 else 0
         end).
Proof.
  induction us as [| u us IH]; intros fb res w.
  - simpl. repeat split; auto. destruct fb; reflexivity.
  - turn u fb.
    all: try match goal with
         | |- context [scanLoop repo in_ ?l ?f ?r ?w'] =>
             specialize (IH f r w');
             destruct (scanLoop repo in_ l f r w') as [[r2 l2] w2];
             destruct IH as (Hle & Hnone & Hok)
         end.
    all: rewrite ?(live_cons_deletion u us), ?(live_cons_kept u us) by assumption.
    all: cbn [existsb].
    all: rewrite ?(isCreation_deletion u), ?(isCreation_existing u),
           ?(isCreation_created u) by assumption.
    all: unfold scanCalls, fallbackCalls in *; cbn [filter isScanSecrets isGetBaseSHA length orb] in *.
    all: repeat split; try discriminate; try lia; auto.
    all: match goal with
         | H : _ = inr _ |- _ => destruct (Hok _ H) as [H1 H2]
         end; first [assumption | lia].
Qed.

(** X1: a run of [scanSecretsInternal] never scans more often than the push
    has updates that are not deletions, and does not call the fallback
    discovery when the push creates no reference; a run that succeeds has
    scanned once per update that is not a deletion and has called the
    discovery exactly once when the push creates a reference. *)
Theorem scan_and_discovery_counts (w : World) :
  let '(r, calls, _) := scanSecretsInternal repo in_ w in
  scanCalls calls <= length (live (RefUpdates in_)) /\
  (existsb isCreation (RefUpdates in_) = false -> fallbackCalls calls = 0) /\
  (forall res, r = inr res ->
     scanCalls calls = length (live (RefUpdates in_)) /\
     fallbackCalls calls = if existsb isCreation (RefUpdates in_) then 1 else 0).
Proof.
  unfold scanSecretsInternal.
  pose proof (scanLoop_counts (RefUpdates in_) None {| findings := [] |} w) as H.
  destruct (scanLoop repo in_ (RefUpdates in_) None {| findings := [] |} w)
    as [[r calls] w'].
  destruct H as (Hle & Hnone & Hok).
  split; [exact Hle |]. split; [exact Hnone |].
  intros res Hr. exact (Hok res Hr).
Qed.

Lemma scanLoop_discovery us : forall fb res w,
  let '(_, calls, _) := scanLoop repo in_ us fb res w in
  forall c, In c calls -> isGetBaseSHA c = true ->
    fb = None /\
    exists u a,
      c = CallGetBaseSHA repo (input_Environment in_) (RefUpdates in_) u a /\
      find isCreation us = Some u.
Proof.
  induction us as [| u us IH]; intros fb res w.
  - simpl. intros c [].
  - turn u fb.
    all: try match goal with
         | |- context [scanLoop repo in_ ?l ?f ?r ?w'] =>
             specialize (IH f r w');
             destruct (scanLoop repo in_ l f r w') as [[r2 l2] w2]
         end.
    all: cbn [find].
    all: rewrite ?(isCreation_deletion u), ?(isCreation_existing u),
           ?(isCreation_created u) by assumption.
    all: intros c Hin Hc; simpl in Hin.
    all: repeat match goal with
         | H : _ \/ _ |- _ => destruct H as [H | H]
         | H : False |- _ => destruct H
         end.
    all: try (subst c; cbn [isGetBaseSHA] in Hc;
              first [discriminate Hc | split; [reflexivity | eauto]]).
    all: destruct (IH c Hin Hc) as [Hfb Hrest];
      first [discriminate Hfb | split; [exact Hfb | exact Hrest]].
Qed.

(** X2: when [scanSecretsInternal] calls the fallback discovery, it calls
    it for the first created reference of the push (the first update that is
    not a deletion and whose old id is nil), with the repository, the
    environment and the whole list of updates of the push. *)
Theorem discovery_asked_for_first_creation (w : World) :
  let '(_, calls, _) := scanSecretsInternal repo in_ w in
  forall c, In c calls -> isGetBaseSHA c = true ->
    exists u a,
      c = CallGetBaseSHA repo (input_Environment in_) (RefUpdates in_) u a /\
      find isCreation (RefUpdates in_) = Some u.
Proof.
  unfold scanSecretsInternal.
  pose proof (scanLoop_discovery (RefUpdates in_) None {| findings := [] |} w) as H.
  destruct (scanLoop repo in_ (RefUpdates in_) None {| findings := [] |} w)
    as [[r calls] w'].
  intros c Hin Hc. destruct (H c Hin Hc) as [_ Hasked]. exact Hasked.
Qed.

(** X3: when the fallback discovery answers that no fallback is available,
    every created reference of the push is scanned from the empty base
    revision, whatever id came with the answer, and the other references from
    [<old>^{commit}] as ever. *)
Theorem unavailable_fallback_scans_from_root (w : World) :
  let '(r, calls, _) := scanSecretsInternal repo in_ w in
  forall D, In (D, false) (fallbackAnswers calls) ->
    exists done rest,
      live (RefUpdates in_) = done ++ rest /\
      scansOf calls = map (plannedScan repo in_ EmptyString) done /\
      (forall res, r = inr res -> rest = []).
Proof.
  unfold scanSecretsInternal.
  pose proof (scanLoop_scans (RefUpdates in_) None {| findings := [] |} w) as H.
  destruct (scanLoop repo in_ (RefUpdates in_) None {| findings := [] |} w)
    as [[r calls] w'].
  destruct H as (fb & _ & Hans & done & rest & Hlive & Hscans & Hend).
  intros D HD. specialize (Hans _ HD). simpl in Hans. subst fb.
  exists done, rest. auto.
Qed.

(** X4: the loop only ever appends to the findings it started with: a run
    that succeeds returns them followed by the findings of its scans, in the
    order of the scans. *)
Theorem findings_accumulate_in_order us fb res w :
  let '(r, calls, _) := scanLoop repo in_ us fb res w in
  forall res', r = inr res' -> findings res' = findings res ++ foundIn calls.
Proof.
  pose proof (scanLoop_outcome us fb res w) as H.
  destruct (scanLoop repo in_ us fb res w) as [[[err | res1] calls] w'].
  - intros res' [=].
  - intros res' [= <-]. apply H.
Qed.

Lemma fallbackAnswers_app (l1 l2 : list Call) :
  fallbackAnswers (l1 ++ l2) = fallbackAnswers l1 ++ fallbackAnswers l2.
Proof.
  induction l1 as [| c l1 IH]; [reflexivity |].
  destruct c as [| ? ? ? ? [|] |]; simpl; rewrite IH; reflexivity.
Qed.

Lemma memoAfter_app fb (l1 l2 : list Call) :
  memoAfter (memoAfter fb l1) l2 = memoAfter fb (l1 ++ l2).
Proof.
  unfold memoAfter. destruct fb as [b |]; [reflexivity |].
  rewrite fallbackAnswers_app.
  destruct (fallbackAnswers l1); reflexivity.
Qed.

Lemma turn_memoAfter fb res u w :
  let '(r, calls, _) := scanRefUpdate repo in_ fb res u w in
  forall fb' res', r = inr (fb', res') -> fb' = memoAfter fb calls.
Proof.
  destruct (isDeletion u) eqn:Hdel;
    [ rewrite turn_deletion by exact Hdel
    | destruct (SHA_IsNil (Old u)) eqn:Hnil;
      [ destruct fb as [b |];
        [ rewrite turn_memo by assumption
        | rewrite turn_fresh by assumption;
          destruct (GetBaseSHAForScanningChanges repo (input_Environment in_)
                      (RefUpdates in_) u w) as [[e | answer] w1] ]
      | rewrite (turn_existing _ _ _ _ EmptyString) by assumption ] ].
  all: try match goal with
       | |- context [rgit_ScanSecrets ?p ?w'] =>
           destruct (rgit_ScanSecrets p w') as [[e' | o] w2]
       end.
  all: cbn [afterScan]; intros fb' res' [=]; subst; try reflexivity.
  all: destruct fb'; reflexivity.
Qed.

(** X5: the loop over a list of updates cut in two is the loop over the
    first part followed, unless the first part failed, by the loop over the
    second part, which starts from the fallback base, the findings and the
    world the first part left and adds its calls to the log. *)
Theorem scanLoop_app us1 : forall us2 fb res w,
  scanLoop repo in_ (us1 ++ us2) fb res w =
    let '(r1, l1, w1) := scanLoop repo in_ us1 fb res w in
    match r1 with
    | inl err => (inl err, l1, w1)
    | inr res1 =>
        let '(r2, l2, w2) := scanLoop repo in_ us2 (memoAfter fb l1) res1 w1 in
        (r2, l1 ++ l2, w2)
    end.
Proof.
  induction us1 as [| u us1 IH]; intros us2 fb res w.
  - simpl. replace (memoAfter fb []) with fb by (destruct fb; reflexivity).
    destruct (scanLoop repo in_ us2 fb res w) as [[r2 l2] w2]. reflexivity.
  - rewrite <- app_comm_cons, !scanLoop_cons.
    pose proof (turn_memoAfter fb res u w) as Hmemo.
    destruct (scanRefUpdate repo in_ fb res u w) as [[[e | [fb' res']] l1] w1].
    + reflexivity.
    + rewrite IH. rewrite (Hmemo fb' res' eq_refl).
      destruct (scanLoop repo in_ us1 (memoAfter fb l1) res' w1)
        as [[[e | res1] l2] w2]; [reflexivity |].
      rewrite memoAfter_app.
      destruct (scanLoop repo in_ us2 (memoAfter fb (l1 ++ l2)) res1 w2)
        as [[r3 l3] w3].
      rewrite app_assoc. reflexivity.
Qed.

Lemma scanLoop_live us : forall fb res w,
  scanLoop repo in_ us fb res w = scanLoop repo in_ (live us) fb res w.
Proof.
  induction us as [| u us IH]; intros fb res w; [reflexivity |].
  destruct (isDeletion u) eqn:Hdel.
  - rewrite live_cons_deletion, scanLoop_cons, turn_deletion by assumption.
    rewrite <- IH.
    destruct (scanLoop repo in_ us fb res w) as [[r l] w']. reflexivity.
  - rewrite live_cons_kept by assumption. rewrite !scanLoop_cons.
    destruct (scanRefUpdate repo in_ fb res u w) as [[[e | [fb' res']] l1] w1];
      [reflexivity |].
    rewrite <- IH. reflexivity.
Qed.

Lemma scanLoop_failure us : forall fb res w,
  let '(r, calls, _) := scanLoop repo in_ us fb res w in
  forall err, r = inl err ->
    exists before c e,
      calls = before ++ [c] /\
      Forall (fun c => failedWith c = None) before /\
      failedWith c = Some e /\
      err = fmt_Errorf_w (phase c) e.
Proof.
  induction us as [| u us IH]; intros fb res w.
  - simpl. intros err [=].
  - turn u fb.
    all: try match goal with
         | |- context [scanLoop repo in_ ?l ?f ?r ?w'] =>
             specialize (IH f r w');
             destruct (scanLoop repo in_ l f r w') as [[r2 l2] w2]
         end.
    all: intros err Herr.
    all: try (destruct (IH err Herr) as (before & c & e' & -> & Hok & Hc & ->)).
    all: try match goal with
         | |- exists _ _ _, ?pre :: ?pre2 :: ?b ++ [?c] = _ /\ _ =>
             exists (pre :: pre2 :: b), c; eexists;
             repeat split; eauto; repeat constructor; auto
         | |- exists _ _ _, ?pre :: ?b ++ [?c] = _ /\ _ =>
             exists (pre :: b), c; eexists;
             repeat split; eauto; repeat constructor; auto
         | |- exists _ _ _, ?b ++ [?c] = _ /\ _ =>
             exists b, c; eexists; repeat split; eauto
         end.
    all: injection Herr as <-.
    all: match goal with
         | |- exists _ _ _, [?c1; ?c] = _ /\ _ =>
             exists [c1], c; eexists; repeat split;
             try reflexivity; repeat constructor
         | |- exists _ _ _, [?c] = _ /\ _ =>
             exists [], c; eexists; repeat split;
             try reflexivity; repeat constructor
         end.
Qed.

(** *** Further properties of [scanSecrets] *)

Lemma failedWith_answered c e : failedWith c = Some e -> answeredError c = Some e.
Proof. destruct c; simpl; [discriminate | auto | auto]. Qed.

Lemma scanSecretsInternal_answered w :
  let '(r, calls, _) := scanSecretsInternal repo in_ w in
  forall res, r = inr res -> Forall (fun c => answeredError c = None) calls.
Proof.
  pose proof (scanSecretsInternal_outcome w) as H.
  pose proof (scanLoop_calls (RefUpdates in_) None {| findings := [] |} w) as Hcalls.
  fold (scanSecretsInternal repo in_ w) in Hcalls.
  destruct (scanSecretsInternal repo in_ w) as [[[err | res1] calls] w'];
    intros res [=].
  destruct H as [_ Hok]. rewrite Forall_forall in *.
  intros c Hc. specialize (Hcalls c Hc). specialize (Hok c Hc).
  destruct c; simpl in *; [discriminate | exact Hok | exact Hok].
Qed.

(** X6: [scanSecrets] looks the setting up exactly once, before any other
    call, for the id of the repository and with the key and the default of
    secret scanning; every later call is a call of the fallback discovery or
    of the scan. *)
Theorem settings_lookup_once_and_first output w :
  let '(_, calls, _) := scanSecrets repo in_ output w in
  exists rest,
    calls = CallRepoGet (ID repo) KeySecretScanningEnabled
              DefaultSecretScanningEnabled (fst (lookup repo w)) :: rest /\
    Forall (fun c => isGetBaseSHA c || isScanSecrets c = true) rest.
Proof.
  rewrite scanSecrets_run.
  destruct (lookup repo w) as [[e | [|]] w1]; cbv beta iota.
  - exists []. split; [reflexivity | constructor].
  - pose proof (scanLoop_calls (RefUpdates in_) None {| findings := [] |} w1) as H.
    fold (scanSecretsInternal repo in_ w1) in H.
    destruct (scanSecretsInternal repo in_ w1) as [[[err | res] calls] w2];
      cbv beta iota; exists calls; split; try reflexivity; exact H.
  - exists []. split; [reflexivity | constructor].
Qed.

(** X7: [scanSecrets] returns a nil error exactly when every call it made
    was answered without an error. *)
Theorem error_iff_failed_call output w :
  let '((_, err), calls, _) := scanSecrets repo in_ output w in
  err = None <-> Forall (fun c => answeredError c = None) calls.
Proof.
  rewrite scanSecrets_run.
  destruct (lookup repo w) as [[e | [|]] w1]; cbv beta iota.
  - split; [discriminate |]. intros H. inversion H as [| c l Hc _]. discriminate Hc.
  - pose proof (scanLoop_failure (RefUpdates in_) None {| findings := [] |} w1) as Hfail.
    pose proof (scanSecretsInternal_answered w1) as Hok.
    fold (scanSecretsInternal repo in_ w1) in Hfail.
    destruct (scanSecretsInternal repo in_ w1) as [[[err | res] calls] w2];
      cbv beta iota.
    + split; [discriminate |]. intros H. exfalso.
      destruct (Hfail err eq_refl) as (before & c & e & -> & _ & Hc & _).
      apply failedWith_answered in Hc.
      inversion H as [| c0 l _ Hrest]. rewrite Forall_forall in Hrest.
      rewrite Hrest in Hc; [discriminate |].
      apply in_or_app. right. left. reflexivity.
    + split; [| reflexivity]. intros _.
      constructor; [reflexivity | exact (Hok res eq_refl)].
  - split; [| reflexivity]. intros _. repeat constructor.
Qed.

(** X8: when a call was answered with an error, the error [scanSecrets]
    returns is that error wrapped: once, behind the settings text, for the
    settings lookup; twice, behind the text of the failed step and the text
    "failed to scan for git leaks", for the fallback discovery and the scan.
    The cause can be unwrapped again, its status is the status of the
    returned error, and its message ends the returned message. *)
Theorem reported_error output w :
  let '((_, err), calls, _) := scanSecrets repo in_ output w in
  forall c e, In c calls -> answeredError c = Some e ->
    err = Some (reported c e) /\
    error_status (reported c e) = error_status e /\
    (failedWith c = None ->
       Unwrap (reported c e) = Some e /\
       error_Error (reported c e) = (phase c ++ error_Error e)%string) /\
    (failedWith c = Some e ->
       Unwrap (reported c e) = Some (fmt_Errorf_w (phase c) e) /\
       Unwrap (fmt_Errorf_w (phase c) e) = Some e /\
       error_Error (reported c e)
         = ("failed to scan for git leaks: " ++ phase c ++ error_Error e)%string).
Proof.
  assert (Hshape : forall c e, answeredError c = Some e ->
            error_status (reported c e) = error_status e /\
            (failedWith c = None ->
               Unwrap (reported c e) = Some e /\
               error_Error (reported c e) = (phase c ++ error_Error e)%string) /\
            (failedWith c = Some e ->
               Unwrap (reported c e) = Some (fmt_Errorf_w (phase c) e) /\
               Unwrap (fmt_Errorf_w (phase c) e) = Some e /\
               error_Error (reported c e)
                 = ("failed to scan for git leaks: " ++ phase c ++ error_Error e)%string)).
  { intros c e Hc. destruct c as [? ? ? [|] | ? ? ? ? [|] | ? [|]];
      simpl in *; try discriminate; repeat split; auto; discriminate. }
  rewrite scanSecrets_run.
  destruct (lookup repo w) as [[e0 | [|]] w1]; cbv beta iota.
  - intros c e [<- | []] Hc. split; [| exact (Hshape _ _ Hc)].
    simpl in Hc. injection Hc as <-. reflexivity.
  - pose proof (scanLoop_failure (RefUpdates in_) None {| findings := [] |} w1) as Hfail.
    pose proof (scanSecretsInternal_answered w1) as Hok.
    pose proof (scanLoop_calls (RefUpdates in_) None {| findings := [] |} w1) as Hcalls.
    fold (scanSecretsInternal repo in_ w1) in Hfail, Hcalls.
    destruct (scanSecretsInternal repo in_ w1) as [[[err | res] calls] w2];
      cbv beta iota; intros c e [<- | Hin] Hc; try discriminate Hc.
    + split; [| exact (Hshape _ _ Hc)].
      destruct (Hfail err eq_refl) as (before & c0 & e1 & -> & Hbefore & Hc0 & ->).
      rewrite Forall_forall in Hcalls, Hbefore.
      pose proof (Hcalls c Hin) as Hkind.
      assert (Hfailed : failedWith c = Some e).
      { destruct c; simpl in *; [discriminate | exact Hc | exact Hc]. }
      apply in_app_or in Hin. destruct Hin as [Hin | [<- | []]].
      * rewrite (Hbefore c Hin) in Hfailed. discriminate.
      * assert (e1 = e) as -> by congruence.
        destruct c0; simpl in *; [discriminate | reflexivity | reflexivity].
    + exfalso. specialize (Hok res eq_refl). rewrite Forall_forall in Hok.
      rewrite (Hok c Hin) in Hc. discriminate.
  - intros c e [<- | []] Hc. discriminate Hc.
Qed.

(** X9: every scan a run of [scanSecretsInternal] makes reads the
    repository of the push with the alternate object directories of its
    environment, and scans up to [<new>^{commit}] for an update of the push
    that is not a deletion, from [<old>^{commit}] when the old id of that
    update is not nil. *)
Theorem scans_read_push_environment (w : World) :
  let '(_, calls, _) := scanSecretsInternal repo in_ w in
  forall p, In p (scansOf calls) ->
    params_ReadParams p
      = {| RepoUID := GitUID repo;
           read_AlternateObjectDirs := AlternateObjectDirs (input_Environment in_) |} /\
    exists u,
      In u (RefUpdates in_) /\
      isDeletion u = false /\
      Rev p = commitRev (New u) /\
      (SHA_IsNil (Old u) = false -> BaseRev p = commitRev (Old u)).
Proof.
  unfold scanSecretsInternal.
  pose proof (scanLoop_scans (RefUpdates in_) None {| findings := [] |} w) as H.
  destruct (scanLoop repo in_ (RefUpdates in_) None {| findings := [] |} w)
    as [[r calls] w'].
  destruct H as (fb & _ & _ & done & rest & Hlive & Hscans & _).
  intros p Hp. rewrite Hscans in Hp. apply in_map_iff in Hp.
  destruct Hp as (u & <- & Hu).
  split; [reflexivity |].
  assert (Hin : In u (live (RefUpdates in_))).
  { rewrite Hlive. apply in_or_app. left. exact Hu. }
  unfold live in Hin. apply filter_In in Hin. destruct Hin as [Hin Hkept].
  exists u. split; [exact Hin |].
  split; [apply negb_true_iff; exact Hkept |].
  split; [reflexivity |].
  intros Hnil. unfold plannedScan. rewrite Hnil. reflexivity.
Qed.

End Claims.
End GateProps.

(* ================================================================== *)
(** ** Properties of the blob reader *)
(* ================================================================== *)

Module BlobProps.
Import Blob.

Lemma firstn_more {A : Type} (a b : nat) (l : list A) :
  firstn a l ++ firstn b (skipn a l) = firstn (a + b) l.
Proof.
  revert l. induction a as [| a IH]; intros l; simpl.
  - reflexivity.
  - destruct l as [| x l]; simpl.
    + destruct b; reflexivity.
    + rewrite IH. reflexivity.
Qed.

(** Reading leaves the [stop] function and the count of cancellations as
    they are. *)
Lemma Read_keeps l k p :
  let '(_, _, l', p') := limitReaderCloser_Read l k p in
  stop l' = stop l /\ cancels p' = cancels p.
Proof.
  unfold limitReaderCloser_Read, LimitedReader_Read, stdout_Read.
  destruct (N (reader l) <=? 0)%Z; simpl; [auto |].
  destruct (stdout_pending p); simpl; auto.
Qed.

Lemma readSome_keeps ks : forall l p,
  let '(_, l', p') := readSome ks l p in
  stop l' = stop l /\ cancels p' = cancels p.
Proof.
  induction ks as [| k ks IH]; intros l p; simpl; [auto |].
  pose proof (Read_keeps l k p) as H1.
  destruct (limitReaderCloser_Read l k p) as [[[bytes err] l1] p1].
  specialize (IH l1 p1).
  destruct (readSome ks l1 p1) as [[more l2] p2].
  destruct H1 as [H1 H2], IH as [H3 H4]. split; congruence.
Qed.

(** A stream with [n] bytes left to hand out, over a process that has at
    least [n] bytes pending, hands out exactly those [n] bytes and then
    reports the end of the stream, whatever the buffer size. *)
Lemma readAll_exact fuel : forall n k l p,
  N (reader l) = Z.of_nat n ->
  n <= length (stdout_pending p) ->
  1 <= k ->
  n < fuel ->
  exists l' p',
    readAll fuel k l p = (firstn n (stdout_pending p), true, l', p').
Proof.
  induction fuel as [| fuel IH]; intros n k l p HN Hlen Hk Hfuel; [lia |].
  simpl. unfold limitReaderCloser_Read, LimitedReader_Read.
  destruct (N (reader l) <=? 0)%Z eqn:Hz.
  - apply Z.leb_le in Hz. assert (n = 0) as -> by lia.
    simpl. eauto.
  - apply Z.leb_gt in Hz.
    set (k' := if (Z.of_nat k >? N (reader l))%Z then Z.to_nat (N (reader l)) else k).
    assert (Hk' : 1 <= k' /\ k' <= n).
    { subst k'. destruct (Z.of_nat k >? N (reader l))%Z eqn:Hgt.
      - rewrite HN, Nat2Z.id. lia.
      - rewrite Z.gtb_ltb in Hgt. apply Z.ltb_ge in Hgt. lia. }
    unfold stdout_Read.
    destruct (stdout_pending p) as [| x pending] eqn:Hp; [simpl in Hlen; lia |].
    rewrite <- Hp in *.
    set (l1 := {| reader := {| N := N (reader l) - Z.of_nat (length (firstn k' (stdout_pending p))) |};
                  stop := stop l |}).
    set (p1 := set_stdout (skipn k' (stdout_pending p)) p).
    assert (Hlen1 : length (firstn k' (stdout_pending p)) = k').
    { apply firstn_length_le. lia. }
    destruct (IH (n - k') k l1 p1) as (l' & p' & Hrun).
    + subst l1. simpl. rewrite Hlen1. lia.
    + subst p1. simpl. rewrite length_skipn. lia.
    + exact Hk.
    + lia.
    + rewrite Hrun. subst p1. simpl.
      rewrite firstn_more. replace (k' + (n - k')) with n by lia. eauto.
Qed.

Section Claims.
Context {B : Backend}.

(** [GetBlob], step by step. *)
Lemma GetBlob_run repoPath sha sizeLimit :
  GetBlob repoPath sha sizeLimit =
    match stdin_broken (CatFileBatch repoPath) with
    | Some err =>
        (inl (fmt_Errorf_w "failed to write blob sha to git stdin: " err),
         cancel (CatFileBatch repoPath))
    | None =>
        let p2 := set_stdout (snd (header repoPath)) (started repoPath sha) in
        match fst (header repoPath) with
        | inl err =>
            (inl (processGitErrorf err "failed to read cat-file batch line"), cancel p2)
        | inr (objectSHA, objectType, objectSize) =>
            if negb (String.eqb objectSHA sha) then
              (inl (errorString
                      ("cat-file returned object sha '" ++ objectSHA
                       ++ "' but expected '" ++ sha ++ "'")%string),
               cancel p2)
            else if negb (String.eqb objectType GitObjectTypeBlob) then
              (inl (errors_InvalidArgument
                      ("cat-file returned object type '" ++ objectType
                       ++ "' but expected '" ++ GitObjectTypeBlob ++ "'")%string),
               cancel p2)
            else
              (inr {| SHA := sha;
                      Size := objectSize;
                      ContentSize :=
                        if ((sizeLimit >? 0) && (sizeLimit <? objectSize))%Z
                        then sizeLimit else objectSize;
                      Content :=
                        newLimitReaderCloser
                          (if ((sizeLimit >? 0) && (sizeLimit <? objectSize))%Z
                           then sizeLimit else objectSize) cancel |},
               p2)
        end
    end.
Proof.
  unfold GetBlob, started, header, stdin_Write.
  destruct (stdin_broken (CatFileBatch repoPath)) as [err |]; [reflexivity |].
  simpl.
  destruct (ReadBatchHeaderLine (stdout_pending (CatFileBatch repoPath)))
    as [[err | [[objectSHA objectType] objectSize]] rest]; reflexivity.
Qed.

Lemma cancels_cancel p : cancels (cancel p) = S (cancels p).
Proof. reflexivity. Qed.

Lemma started_cancels repoPath sha rest :
  cancels (set_stdout rest (started repoPath sha)) = cancels (CatFileBatch repoPath).
Proof.
  unfold started, stdin_Write.
  destruct (stdin_broken (CatFileBatch repoPath)); reflexivity.
Qed.

(** C4: the reader a successful [GetBlob] returns has the size of the
    header as its [Size]; its [ContentSize] is [min Size sizeLimit] when
    [sizeLimit > 0] and [Size] otherwise; and when the process delivers the
    bytes its header declared, reading the [Content] stream to its end, with
    any buffer size, yields exactly [ContentSize] bytes: the first
    [ContentSize] bytes of the object. *)
Theorem blob_content_size repoPath sha sizeLimit b p
    (Hok : GetBlob repoPath sha sizeLimit = (inr b, p)) :
  (exists objectSHA objectType,
     fst (header repoPath) = inr (objectSHA, objectType, Size b)) /\
  ContentSize b
    = (if (sizeLimit >? 0)%Z then Z.min (Size b) sizeLimit else Size b) /\
  ((0 <= Size b <= Z.of_nat (length (stdout_pending p)))%Z ->
   forall k fuel,
     1 <= k -> Z.to_nat (ContentSize b) < fuel ->
     exists bytes l' p',
       readAll fuel k (Content b) p = (bytes, true, l', p') /\
       bytes = firstn (Z.to_nat (ContentSize b)) (stdout_pending p) /\
       Z.of_nat (length bytes) = ContentSize b).
Proof.
  rewrite GetBlob_run in Hok.
  destruct (stdin_broken (CatFileBatch repoPath)); [discriminate |].
  destruct (fst (header repoPath)) as [err | [[objectSHA objectType] objectSize]];
    [discriminate |].
  destruct (negb (String.eqb objectSHA sha)); [discriminate |].
  destruct (negb (String.eqb objectType GitObjectTypeBlob)); [discriminate |].
  injection Hok as <- <-. simpl.
  assert (Hsize :
    (if ((sizeLimit >? 0) && (sizeLimit <? objectSize))%Z then sizeLimit else objectSize)
    = (if (sizeLimit >? 0)%Z then Z.min objectSize sizeLimit else objectSize)).
  { destruct (sizeLimit >? 0)%Z; simpl; [| reflexivity].
    destruct (sizeLimit <? objectSize)%Z eqn:Hlt.
    - apply Z.ltb_lt in Hlt. lia.
    - apply Z.ltb_ge in Hlt. lia. }
  split; [eauto |]. split; [exact Hsize |].
  intros Hpayload k fuel Hk Hfuel.
  set (size := if ((sizeLimit >? 0) && (sizeLimit <? objectSize))%Z
               then sizeLimit else objectSize) in *.
  assert (Hrange : (0 <= size <= objectSize)%Z).
  { rewrite Hsize. destruct (sizeLimit >? 0)%Z eqn:Hpos; [| lia].
    rewrite Z.gtb_ltb in Hpos. apply Z.ltb_lt in Hpos. lia. }
  destruct (readAll_exact fuel (Z.to_nat size) k
              (newLimitReaderCloser size cancel)
              (set_stdout (snd (header repoPath)) (started repoPath sha)))
    as (l' & p' & Hrun).
  - simpl. lia.
  - simpl in *. lia.
  - exact Hk.
  - exact Hfuel.
  - exists (firstn (Z.to_nat size)
              (stdout_pending (set_stdout (snd (header repoPath)) (started repoPath sha)))),
      l', p'.
    split; [exact Hrun |]. split; [reflexivity |].
    rewrite firstn_length_le; simpl in *; lia.
Qed.

(** C8 (amended): when the id of the header differs from the requested id,
    [GetBlob] fails with a plain error: a message, no status and no wrapped
    cause.  When the id agrees and the type of the header is not
    [GitObjectTypeBlob], it fails with an error of status [InvalidArgument].
    When the write to stdin fails, it fails with a plain error that wraps the
    cause.  The type error is told from the two others by its status; the id
    error and the write error carry no status of their own and differ in the
    wrapped cause alone. *)
Theorem GetBlob_header_errors repoPath sha sizeLimit :
  (forall objectSHA objectType objectSize,
     stdin_broken (CatFileBatch repoPath) = None ->
     fst (header repoPath) = inr (objectSHA, objectType, objectSize) ->
     (objectSHA <> sha ->
      let err := errorString
                   ("cat-file returned object sha '" ++ objectSHA
                    ++ "' but expected '" ++ sha ++ "'")%string in
      fst (GetBlob repoPath sha sizeLimit) = inl err /\
      error_status err = None /\ Unwrap err = None) /\
     (objectSHA = sha -> objectType <> GitObjectTypeBlob ->
      let err := errors_InvalidArgument
                   ("cat-file returned object type '" ++ objectType
                    ++ "' but expected '" ++ GitObjectTypeBlob ++ "'")%string in
      fst (GetBlob repoPath sha sizeLimit) = inl err /\
      error_status err = Some StatusInvalidArgument /\ Unwrap err = None)) /\
  (forall cause,
     stdin_broken (CatFileBatch repoPath) = Some cause ->
     let err := fmt_Errorf_w "failed to write blob sha to git stdin: " cause in
     fst (GetBlob repoPath sha sizeLimit) = inl err /\
     error_status err = error_status cause /\ Unwrap err = Some cause).
Proof.
  rewrite GetBlob_run. split.
  - intros objectSHA objectType objectSize -> ->. split.
    + intros Hsha. apply String.eqb_neq in Hsha. rewrite Hsha. simpl. auto.
    + intros -> Hty. rewrite String.eqb_refl. simpl.
      apply String.eqb_neq in Hty. rewrite Hty. simpl. auto.
  - intros cause ->. simpl. auto.
Qed.

(** C10: every error return of [GetBlob] has called [cancel] (once); on
    success [cancel] was not called yet, and after any Reads of the returned
    [Content] stream, [Close] returns nil and calls [cancel]. *)
Theorem GetBlob_releases_backend repoPath sha sizeLimit :
  let '(r, p) := GetBlob repoPath sha sizeLimit in
  match r with
  | inl _ => cancels p = S (cancels (CatFileBatch repoPath))
  | inr b =>
      cancels p = cancels (CatFileBatch repoPath) /\
      forall ks,
        let '(_, l, p') := readSome ks (Content b) p in
        limitReaderCloser_Close l p' = (None, cancel p') /\
        cancels (cancel p') = S (cancels (CatFileBatch repoPath))
  end.
Proof.
  rewrite GetBlob_run.
  destruct (stdin_broken (CatFileBatch repoPath)) as [err |] eqn:Hw;
    [reflexivity |].
  destruct (fst (header repoPath)) as [err | [[objectSHA objectType] objectSize]];
    cbv beta iota zeta.
  - rewrite cancels_cancel, started_cancels. reflexivity.
  - destruct (negb (String.eqb objectSHA sha)); cbv beta iota zeta;
      [rewrite cancels_cancel, started_cancels; reflexivity |].
    destruct (negb (String.eqb objectType GitObjectTypeBlob)); cbv beta iota zeta;
      [rewrite cancels_cancel, started_cancels; reflexivity |].
    split; [apply started_cancels |].
    intros ks.
    match goal with
    | |- context [readSome ks ?l ?p] =>
        pose proof (readSome_keeps ks l p) as Hkeep;
        destruct (readSome ks l p) as [[bytes l'] p']
    end.
    destruct Hkeep as [Hstop Hcancels]. simpl in Hstop.
    unfold limitReaderCloser_Close. rewrite Hstop. split; [reflexivity |].
    rewrite cancels_cancel, Hcancels, started_cancels. reflexivity.
Qed.

(** *** Further properties of the stream and of [GetBlob] *)

Lemma firstn_length_firstn {A : Type} (n : nat) (l : list A) :
  firstn (length (firstn n l)) l = firstn n l.
Proof.
  revert l. induction n as [| n IH]; intros [| x l]; simpl; try reflexivity.
  rewrite IH. reflexivity.
Qed.

Lemma skipn_length_firstn {A : Type} (n : nat) (l : list A) :
  skipn (length (firstn n l)) l = skipn n l.
Proof.
  revert l. induction n as [| n IH]; intros [| x l]; simpl; try reflexivity.
  apply IH.
Qed.

Lemma skipn_more {A : Type} (a b : nat) (l : list A) :
  skipn b (skipn a l) = skipn (a + b) l.
Proof.
  revert l. induction a as [| a IH]; intros l; simpl; [reflexivity |].
  destruct l as [| x l]; [destruct b; reflexivity | apply IH].
Qed.

(** One Read hands out the next pending bytes, at most as many as the buffer
    holds and as the limit leaves, takes them from the process and counts
    them off the limit. *)
Lemma Read_prefix l k p :
  let '(bytes, _, l', p') := limitReaderCloser_Read l k p in
  bytes = firstn (length bytes) (stdout_pending p) /\
  stdout_pending p' = skipn (length bytes) (stdout_pending p) /\
  length bytes <= k /\
  (Z.of_nat (length bytes) <= Z.max 0 (N (reader l)))%Z /\
  N (reader l') = (N (reader l) - Z.of_nat (length bytes))%Z /\
  stdin_written p' = stdin_written p.
Proof.
  unfold limitReaderCloser_Read, LimitedReader_Read.
  destruct (N (reader l) <=? 0)%Z eqn:Hz.
  - simpl. repeat split; lia.
  - apply Z.leb_gt in Hz.
    set (k' := if (Z.of_nat k >? N (reader l))%Z then Z.to_nat (N (reader l)) else k).
    assert (Hk' : k' <= k /\ (Z.of_nat k' <= N (reader l))%Z).
    { subst k'. destruct (Z.of_nat k >? N (reader l))%Z eqn:Hgt.
      - rewrite Z.gtb_ltb in Hgt. apply Z.ltb_lt in Hgt. lia.
      - rewrite Z.gtb_ltb in Hgt. apply Z.ltb_ge in Hgt. lia. }
    unfold stdout_Read.
    destruct (stdout_pending p) as [| x pending] eqn:Hp.
    + simpl. rewrite Hp. repeat split; lia.
    + cbn [reader stdout_pending set_stdout stdin_written N].
      rewrite firstn_length_firstn, skipn_length_firstn.
      pose proof (firstn_le_length k' (x :: pending)) as Hlen.
      assert (Hmin : length (firstn k' (x :: pending)) <= k').
      { rewrite length_firstn. lia. }
      repeat split; lia.
Qed.

(** X10: whatever Reads a caller makes, the [Content] stream hands out the
    bytes pending on the process's stdout in their order, never more than its
    limit (none when the limit is not positive) nor more than the buffers
    hold, takes from the process exactly the bytes it hands out, and counts
    them off the limit. *)
Theorem stream_hands_out_prefix ks : forall l p,
  let '(bytes, l', p') := readSome ks l p in
  bytes = firstn (length bytes) (stdout_pending p) /\
  stdout_pending p' = skipn (length bytes) (stdout_pending p) /\
  length bytes <= list_sum ks /\
  (Z.of_nat (length bytes) <= Z.max 0 (N (reader l)))%Z /\
  N (reader l') = (N (reader l) - Z.of_nat (length bytes))%Z.
Proof.
  induction ks as [| k ks IH]; intros l p.
  - simpl. repeat split; lia.
  - simpl.
    pose proof (Read_prefix l k p) as H1.
    destruct (limitReaderCloser_Read l k p) as [[[bytes1 err] l1] p1].
    specialize (IH l1 p1).
    destruct (readSome ks l1 p1) as [[bytes2 l2] p2].
    destruct H1 as (Hb1 & Hp1 & Hk1 & Hn1 & HN1 & _).
    destruct IH as (Hb2 & Hp2 & Hk2 & Hn2 & HN2).
    rewrite length_app.
    split; [| split; [| split; [| split]]].
    + rewrite <- firstn_more, <- Hb1, <- Hp1, <- Hb2. reflexivity.
    + rewrite Hp2, Hp1. apply skipn_more.
    + lia.
    + lia.
    + lia.
Qed.

(** Reading to the end: the first [N] pending bytes, or all of them when
    fewer are pending, and then the end of the stream. *)
Lemma readAll_limit fuel : forall k l p,
  1 <= k ->
  Z.to_nat (N (reader l)) < fuel ->
  exists l' p',
    readAll fuel k l p
      = (firstn (Z.to_nat (N (reader l))) (stdout_pending p), true, l', p') /\
    stdout_pending p' = skipn (Z.to_nat (N (reader l))) (stdout_pending p) /\
    cancels p' = cancels p.
Proof.
  induction fuel as [| fuel IH]; intros k l p Hk Hfuel; [lia |].
  simpl.
  pose proof (Read_prefix l k p) as Hread.
  pose proof (Read_keeps l k p) as Hkeep.
  unfold limitReaderCloser_Read, LimitedReader_Read in *.
  destruct (N (reader l) <=? 0)%Z eqn:Hz.
  - apply Z.leb_le in Hz.
    replace (Z.to_nat (N (reader l))) with 0 by lia.
    simpl. eauto.
  - apply Z.leb_gt in Hz.
    set (k' := if (Z.of_nat k >? N (reader l))%Z then Z.to_nat (N (reader l)) else k) in *.
    assert (Hk' : 1 <= k' /\ k' <= Z.to_nat (N (reader l))).
    { subst k'. destruct (Z.of_nat k >? N (reader l))%Z eqn:Hgt.
      - lia.
      - rewrite Z.gtb_ltb in Hgt. apply Z.ltb_ge in Hgt. lia. }
    unfold stdout_Read in *.
    destruct (stdout_pending p) as [| x pending] eqn:Hp.
    + replace (Nat.eqb k' 0) with false
        by (symmetry; apply Nat.eqb_neq; lia).
      rewrite firstn_nil, skipn_nil. exists l, p.
      destruct l as [[n] st]. simpl. rewrite Z.sub_0_r. auto.
    + rewrite <- Hp in *.
      remember (firstn k' (stdout_pending p)) as bytes eqn:Hbytes.
      set (l1 := {| reader := {| N := N (reader l) - Z.of_nat (length bytes) |};
                    stop := stop l |}) in *.
      set (p1 := set_stdout (skipn k' (stdout_pending p)) p) in *.
      destruct Hread as (_ & _ & _ & Hbound & _ & _).
      destruct Hkeep as [_ Hcancels].
      assert (Hlen : 1 <= length bytes).
      { subst bytes. rewrite length_firstn, Hp. simpl. lia. }
      destruct (IH k l1 p1 Hk) as (l' & p' & Hrun & Hrest & Hc).
      { subst l1. simpl. lia. }
      rewrite Hrun. exists l', p'.
      assert (HN1 : Z.to_nat (N (reader l1))
                    = Z.to_nat (N (reader l)) - length bytes).
      { subst l1. simpl. lia. }
      rewrite HN1 in *. subst p1. simpl in Hrest, Hc |- *.
      assert (Hcases : k' <= length (stdout_pending p)
                       \/ length (stdout_pending p) < k') by lia.
      destruct Hcases as [Hfits | Hshort].
      * assert (length bytes = k') as Hk'eq.
        { subst bytes. apply firstn_length_le. exact Hfits. }
        rewrite Hk'eq in *.
        split; [| split; [| congruence]].
        -- subst bytes. rewrite firstn_more.
           replace (k' + (Z.to_nat (N (reader l)) - k'))
             with (Z.to_nat (N (reader l))) by lia.
           reflexivity.
        -- rewrite Hrest, skipn_more.
           replace (k' + (Z.to_nat (N (reader l)) - k'))
             with (Z.to_nat (N (reader l))) by lia.
           reflexivity.
      * split; [| split; [| congruence]].
        -- subst bytes. rewrite (skipn_all2 (stdout_pending p)) by lia.
           rewrite firstn_nil, app_nil_r.
           rewrite !firstn_all2 by lia. reflexivity.
        -- rewrite Hrest. rewrite (skipn_all2 (stdout_pending p)) by lia.
           rewrite skipn_nil. symmetry. apply skipn_all2. lia.
Qed.

Lemma GetBlob_success repoPath sha sizeLimit b p :
  GetBlob repoPath sha sizeLimit = (inr b, p) ->
  stdin_broken (CatFileBatch repoPath) = None /\
  fst (header repoPath) = inr (sha, GitObjectTypeBlob, Size b) /\
  SHA b = sha /\
  ContentSize b
    = (if ((sizeLimit >? 0) && (sizeLimit <? Size b))%Z then sizeLimit else Size b) /\
  Content b = newLimitReaderCloser (ContentSize b) cancel /\
  p = set_stdout (snd (header repoPath)) (started repoPath sha).
Proof.
  rewrite GetBlob_run.
  destruct (stdin_broken (CatFileBatch repoPath)); [discriminate |].
  destruct (fst (header repoPath)) as [err | [[objectSHA objectType] objectSize]];
    [discriminate |].
  destruct (String.eqb objectSHA sha) eqn:Hsha; [| discriminate].
  destruct (String.eqb objectType GitObjectTypeBlob) eqn:Hty; [| discriminate].
  apply String.eqb_eq in Hsha, Hty. subst objectSHA objectType.
  simpl. intros [= <- <-]. simpl. repeat split.
Qed.

(** X11: read to its end, with any buffer size, the [Content] stream of a
    successful [GetBlob] yields the first [ContentSize] bytes pending on the
    process's stdout after the header, or all pending bytes when the process
    delivers fewer, and nothing when [ContentSize] is not positive; the bytes
    after them stay pending, and [cancel] is not called by reading. *)
Theorem content_is_prefix_of_stdout repoPath sha sizeLimit b p k fuel
    (Hok : GetBlob repoPath sha sizeLimit = (inr b, p))
    (Hk : 1 <= k)
    (Hfuel : Z.to_nat (ContentSize b) < fuel) :
  exists l' p',
    readAll fuel k (Content b) p
      = (firstn (Z.to_nat (ContentSize b)) (stdout_pending p), true, l', p') /\
    stdout_pending p' = skipn (Z.to_nat (ContentSize b)) (stdout_pending p) /\
    cancels p' = cancels (CatFileBatch repoPath).
Proof.
  destruct (GetBlob_success _ _ _ _ _ Hok) as (_ & _ & _ & _ & Hcontent & Hp).
  assert (HN : N (reader (Content b)) = ContentSize b).
  { rewrite Hcontent. reflexivity. }
  destruct (readAll_limit fuel k (Content b) p Hk) as (l' & p' & Hrun & Hrest & Hc).
  { rewrite HN. exact Hfuel. }
  rewrite HN in *. exists l', p'.
  split; [exact Hrun |]. split; [exact Hrest |].
  rewrite Hc, Hp. apply started_cancels.
Qed.

(** X12: [GetBlob] returns a reader exactly when the write to stdin
    succeeded and the header read back names the requested id with the type
    blob; the reader then carries the requested id, its stream is limited to
    [ContentSize] bytes, and of the process's stdout only the header was
    consumed. *)
Theorem GetBlob_succeeds_iff repoPath sha sizeLimit :
  ((exists b p, GetBlob repoPath sha sizeLimit = (inr b, p)) <->
   (stdin_broken (CatFileBatch repoPath) = None /\
    exists size, fst (header repoPath) = inr (sha, GitObjectTypeBlob, size))) /\
  (forall b p,
     GetBlob repoPath sha sizeLimit = (inr b, p) ->
     SHA b = sha /\
     N (reader (Content b)) = ContentSize b /\
     stdout_pending p = snd (header repoPath)).
Proof.
  split; [split |].
  - intros (b & p & Hok).
    destruct (GetBlob_success _ _ _ _ _ Hok) as (Hw & Hh & _).
    split; [exact Hw | eauto].
  - intros (Hw & size & Hh).
    rewrite GetBlob_run, Hw, Hh, !String.eqb_refl. simpl. eauto.
  - intros b p Hok.
    destruct (GetBlob_success _ _ _ _ _ Hok) as (_ & _ & Hsha & _ & Hcontent & ->).
    rewrite Hcontent. repeat split. exact Hsha.
Qed.

(** X13: [GetBlob] sends the process one request, the requested id
    followed by a line feed, on every path on which the write succeeds, and
    nothing when the write fails. *)
Theorem request_written_once repoPath sha sizeLimit :
  let '(_, p) := GetBlob repoPath sha sizeLimit in
  stdin_written p
    = match stdin_broken (CatFileBatch repoPath) with
      | Some _ => stdin_written (CatFileBatch repoPath)
      | None => stdin_written (CatFileBatch repoPath) ++ [(sha ++ LF)%string]
      end.
Proof.
  rewrite GetBlob_run.
  assert (Hstarted : forall rest,
            stdin_broken (CatFileBatch repoPath) = None ->
            stdin_written (cancel (set_stdout rest (started repoPath sha)))
              = stdin_written (CatFileBatch repoPath) ++ [(sha ++ LF)%string]).
  { intros rest Hw. unfold started, stdin_Write. rewrite Hw. reflexivity. }
  destruct (stdin_broken (CatFileBatch repoPath)) as [err |] eqn:Hw;
    [reflexivity |].
  destruct (fst (header repoPath)) as [err | [[objectSHA objectType] objectSize]];
    cbv beta iota zeta.
  - apply Hstarted. reflexivity.
  - destruct (negb (String.eqb objectSHA sha)); cbv beta iota zeta;
      [apply Hstarted; reflexivity |].
    destruct (negb (String.eqb objectType GitObjectTypeBlob)); cbv beta iota zeta;
      [apply Hstarted; reflexivity |].
    exact (Hstarted (snd (header repoPath)) eq_refl).
Qed.

(** X14: the content of a returned reader is never longer than the blob,
    and never longer than a positive [sizeLimit]; it is partial
    ([ContentSize < Size]) exactly when [0 < sizeLimit < Size]. *)
Theorem content_partial_iff repoPath sha sizeLimit b p
    (Hok : GetBlob repoPath sha sizeLimit = (inr b, p)) :
  (ContentSize b <= Size b)%Z /\
  ((0 < sizeLimit)%Z -> (ContentSize b <= sizeLimit)%Z) /\
  ((ContentSize b < Size b)%Z <-> (0 < sizeLimit < Size b)%Z).
Proof.
  destruct (GetBlob_success _ _ _ _ _ Hok) as (_ & _ & _ & Hsize & _).
  rewrite Hsize.
  destruct (sizeLimit >? 0)%Z eqn:Hpos; rewrite Z.gtb_ltb in Hpos;
    [apply Z.ltb_lt in Hpos | apply Z.ltb_ge in Hpos];
    (destruct (sizeLimit <? Size b)%Z eqn:Hlt;
     [apply Z.ltb_lt in Hlt | apply Z.ltb_ge in Hlt]);
    simpl; repeat split; lia.
Qed.

(** X15: an error returned by [GetBlob] is one of four: the wrapped cause
    of a failed write to stdin; what [processGitErrorf] makes of a failed
    header read; the id error, for a header with another id; the
    [InvalidArgument] error, for a header with the requested id and a type
    that is not blob. *)
Theorem GetBlob_errors_exhaustive repoPath sha sizeLimit e p
    (Hfail : GetBlob repoPath sha sizeLimit = (inl e, p)) :
  (exists cause,
     stdin_broken (CatFileBatch repoPath) = Some cause /\
     e = fmt_Errorf_w "failed to write blob sha to git stdin: " cause) \/
  (stdin_broken (CatFileBatch repoPath) = None /\
   exists err,
     fst (header repoPath) = inl err /\
     e = processGitErrorf err "failed to read cat-file batch line") \/
  (stdin_broken (CatFileBatch repoPath) = None /\
   exists objectSHA objectType objectSize,
     fst (header repoPath) = inr (objectSHA, objectType, objectSize) /\
     objectSHA <> sha /\
     e = errorString
           ("cat-file returned object sha '" ++ objectSHA
            ++ "' but expected '" ++ sha ++ "'")%string) \/
  (stdin_broken (CatFileBatch repoPath) = None /\
   exists objectType objectSize,
     fst (header repoPath) = inr (sha, objectType, objectSize) /\
     objectType <> GitObjectTypeBlob /\
     e = errors_InvalidArgument
           ("cat-file returned object type '" ++ objectType
            ++ "' but expected '" ++ GitObjectTypeBlob ++ "'")%string).
Proof.
  rewrite GetBlob_run in Hfail.
  destruct (stdin_broken (CatFileBatch repoPath)) as [cause |].
  - left. injection Hfail as <- _. eauto.
  - right.
    destruct (fst (header repoPath)) as [err | [[objectSHA objectType] objectSize]].
    + left. injection Hfail as <- _. eauto.
    + right.
      destruct (String.eqb objectSHA sha) eqn:Hsha; simpl in Hfail.
      * apply String.eqb_eq in Hsha. subst objectSHA. right.
        destruct (String.eqb objectType GitObjectTypeBlob) eqn:Hty;
          simpl in Hfail; [discriminate |].
        apply String.eqb_neq in Hty. injection Hfail as <- _.
        split; [reflexivity |]. exists objectType, objectSize. auto.
      * apply String.eqb_neq in Hsha. left. injection Hfail as <- _.
        split; [reflexivity |]. exists objectSHA, objectType, objectSize. auto.
Qed.

End Claims.
End BlobProps.

(* ================================================================== *)
(** ** Secret scanning on concrete pushes *)
(* ================================================================== *)

Module GateExamples.
Import Githook GateLog Demo GateProps.
#[local] Existing Instance hexTypes.

(** A push that creates two branches, updates one and deletes one: the
    fallback discovery is asked once, for the first created branch, and both
    created branches are scanned from its answer. *)
Example push_with_two_new_branches :
  let '(r, calls, w) :=
    @scanSecretsInternal _ quiet repo1
      (push [createFeature; updateMain; deleteOldFeature; createFeature2]) 0 in
  r = inr noResult /\
  fallbackCalls calls = 1 /\
  map (fun p => (BaseRev p, Rev p)) (scansOf calls)
    = [(idD, (idC ++ "^{commit}")%string);
       ((idA ++ "^{commit}")%string, (idB ++ "^{commit}")%string);
       (idD, (idE ++ "^{commit}")%string)] /\
  w = 4.
Proof. vm_compute. repeat split. Qed.

(** A push that updates [main] to a commit with two leaks is blocked through
    the [Output]. *)
Example push_with_leaks :
  fst (fst (@scanSecrets _ leaky repo1 (push [updateMain]) emptyOutput 0))
  = ({| Messages := ["secret: config.yml: api key"; "secret: deploy.sh: password";
                     EmptyString; EmptyString];
        Error := Some "Changes blocked by security scan results" |},
     None).
Proof. vm_compute. reflexivity. Qed.

(** C2, as stated, fails: when [main] is updated from [idA] to [idB] the
    scan is not called with the two ids but with the revision expressions
    built from them. *)
Lemma scan_range_bare_ids_counterexample :
  ~ (forall p a,
       In (CallScanSecrets p a)
          (snd (fst (@scanSecretsInternal _ quiet repo1 (push [updateMain]) 0))) ->
       BaseRev p = SHA_String (Old updateMain) /\
       Rev p = SHA_String (New updateMain)).
Proof.
  intros H.
  destruct (H (scanParams repo1 (push [updateMain])
                 (idA ++ "^{commit}") (idB ++ "^{commit}"))%string
              (inr {| Findings := [] |})) as [Hbase _].
  - left. reflexivity.
  - discriminate Hbase.
Qed.

(** C1 on a push that creates two branches, updates one and deletes one. *)
Lemma fallback_discovery_at_most_once_witness :
  let '(r, calls, _) :=
    @scanSecretsInternal _ quiet repo1
      (push [createFeature; updateMain; deleteOldFeature; createFeature2]) 0 in
  fallbackCalls calls <= 1 /\
  exists fb,
    (forall a, In a (fallbackAnswers calls) -> fb = fallbackRev a) /\
    exists done rest,
      live [createFeature; updateMain; deleteOldFeature; createFeature2]
        = done ++ rest /\
      scansOf calls
        = map (plannedScan repo1
                 (push [createFeature; updateMain; deleteOldFeature; createFeature2]) fb)
              done /\
      (forall res, r = inr res -> rest = []).
Proof.
  exact (@fallback_discovery_at_most_once _ quiet repo1
           (push [createFeature; updateMain; deleteOldFeature; createFeature2]) 0).
Defined.

(** C2 (amended) on the update of [main] and on the creation of [feature]. *)
Lemma scan_range_of_turn_witness :
  (exists a,
     snd (fst (@scanRefUpdate _ quiet repo1 (push [updateMain; createFeature])
                 None noResult updateMain 0))
     = [CallScanSecrets
          (scanParams repo1 (push [updateMain; createFeature])
             (idA ++ "^{commit}")%string (idB ++ "^{commit}")%string) a]) /\
  (exists a,
     snd (fst (@scanRefUpdate _ quiet repo1 (push [updateMain; createFeature])
                 None noResult createFeature 1))
     = [CallGetBaseSHA repo1 env1 [updateMain; createFeature] createFeature
          (inr (idD, true));
        CallScanSecrets
          (scanParams repo1 (push [updateMain; createFeature])
             idD (idC ++ "^{commit}")%string) a]).
Proof.
  split.
  - pose proof (@scan_range_of_turn _ quiet repo1 (push [updateMain; createFeature])
                  None noResult updateMain 0 eq_refl) as H.
    destruct (@scanRefUpdate _ quiet repo1 (push [updateMain; createFeature])
                None noResult updateMain 0) as [[r calls] w].
    destruct H as [H _]. exact (H eq_refl).
  - pose proof (@scan_range_of_turn _ quiet repo1 (push [updateMain; createFeature])
                  None noResult createFeature 1 eq_refl) as H.
    destruct (@scanRefUpdate _ quiet repo1 (push [updateMain; createFeature])
                None noResult createFeature 1) as [[r calls] w].
    destruct H as [_ [H _]]. exact (H eq_refl eq_refl idD 2 eq_refl).
Defined.

(** C3 on a push that updates [main] to a commit with two leaks. *)
Lemma findings_block_through_output_witness :
  exists output' calls w2,
    @scanSecrets _ leaky repo1 (push [updateMain]) emptyOutput 0
      = ((output', None), calls, w2) /\
    Error output' = Some "Changes blocked by security scan results" /\
    Messages output'
      = ["secret: config.yml: api key"; "secret: deploy.sh: password";
         EmptyString; EmptyString].
Proof.
  edestruct (@findings_block_through_output _ leaky repo1 (push [updateMain])
               emptyOutput 0)
    as (output' & Hrun & Herr & Hmsg & _).
  - reflexivity.
  - reflexivity.
  - simpl. lia.
  - exists output'. do 2 eexists.
    split; [exact Hrun |]. split; [exact Herr |]. exact Hmsg.
Defined.

(** C5 on a push that deletes a branch and does nothing else. *)
Lemma deletions_are_skipped_witness :
  @scanSecretsInternal _ leaky repo1 (push [deleteOldFeature]) 0
    = (inr noResult, [], 0).
Proof.
  apply (proj2 (proj2 (@deletions_are_skipped _ leaky repo1 (push [deleteOldFeature])))).
  repeat constructor.
Defined.

(** C6 on a repository with secret scanning switched off. *)
Lemma disabled_setting_skips_scan_witness :
  @scanSecrets _ disabled repo1 (push [updateMain]) emptyOutput 0
    = ((emptyOutput, None), [@lookedUp _ disabled repo1 (inr false)], 1).
Proof.
  apply (@disabled_setting_skips_scan _ disabled repo1 (push [updateMain])
           emptyOutput 0 1).
  reflexivity.
Defined.

(** C7 with the settings service down, and with a failing scan. *)
Lemma failures_abort_with_error_witness :
  (exists msg,
     fst (fst (@scanSecrets _ settingsDown repo1 (push [updateMain]) emptyOutput 0))
     = (emptyOutput, Some (wrapError msg (errorString "connection refused")))) /\
  (exists msg msg',
     fst (fst (@scanSecrets _ scanDown repo1 (push [updateMain]) emptyOutput 0))
     = (emptyOutput,
        Some (wrapError msg (wrapError msg' (errorString "exit status 128"))))).
Proof.
  split.
  - pose proof (@failures_abort_with_error _ settingsDown repo1 (push [updateMain])
                  emptyOutput 0) as H.
    destruct (@scanSecrets _ settingsDown repo1 (push [updateMain]) emptyOutput 0)
      as [[[output' err] calls] w].
    destruct H as [H _].
    destruct (H (errorString "connection refused") 1 eq_refl)
      as (-> & _ & _ & _ & _ & ->).
    eexists. reflexivity.
  - pose proof (@failures_abort_with_error _ scanDown repo1 (push [updateMain])
                  emptyOutput 0) as H.
    remember (@scanSecrets _ scanDown repo1 (push [updateMain]) emptyOutput 0) as run eqn:Hrun.
    destruct run as [[[output' err] calls] w].
    destruct H as [_ H].
    assert (Hcalls : calls
              = [@lookedUp _ scanDown repo1 (inr true);
                 CallScanSecrets
                   (scanParams repo1 (push [updateMain])
                      (idA ++ "^{commit}")%string (idB ++ "^{commit}")%string)
                   (inl (errorString "exit status 128"))]).
    { vm_compute in Hrun. injection Hrun as _ _ -> _. reflexivity. }
    destruct (H (CallScanSecrets
                   (scanParams repo1 (push [updateMain])
                      (idA ++ "^{commit}")%string (idB ++ "^{commit}")%string)
                   (inl (errorString "exit status 128")))
                (errorString "exit status 128"))
      as ((msg & msg' & ->) & _ & ->).
    + rewrite Hcalls. right. left. reflexivity.
    + reflexivity.
    + exists msg, msg'. reflexivity.
Defined.

(** C9 on a push in which nothing is found. *)
Lemma output_frame_witness :
  let '((output', err), calls, _) :=
    @scanSecrets _ quiet repo1 (push [updateMain]) emptyOutput 0 in
  (output' = emptyOutput \/
   (In (@lookedUp _ quiet repo1 (inr true)) calls /\
    Forall (fun c => answeredError c = None) calls /\
    foundIn calls <> [] /\
    err = None /\
    output' = @blockedOutput _ quiet emptyOutput (foundIn calls))) /\
  (forall c e, In c calls -> answeredError c = Some e -> output' = emptyOutput) /\
  (In (@lookedUp _ quiet repo1 (inr false)) calls -> output' = emptyOutput) /\
  (foundIn calls = [] -> output' = emptyOutput).
Proof.
  exact (@output_frame _ quiet repo1 (push [updateMain]) emptyOutput 0).
Defined.

End GateExamples.

(* ================================================================== *)
(** ** The blob reader on concrete backends *)
(* ================================================================== *)

Module BlobExamples.
Import Blob Demo BlobProps.

(** A size-limited preview: four of the seven bytes, read three at a time. *)
Example preview_of_four_bytes :
  match @GetBlob blobBackend "repo.git" idA 4 with
  | (inr b, p) =>
      Size b = 7%Z /\ ContentSize b = 4%Z /\
      fst (fst (readAll 5 3 (Content b) p))
        = ([Byte.x73; Byte.x65; Byte.x63; Byte.x72], true)
  | (inl _, _) => False
  end.
Proof. vm_compute. repeat split. Qed.

(** C8, as stated, fails.  The error for a header with another id carries no
    status, no more than the error for a failed write to stdin: the two are
    not of distinct kinds.  And a header with another id and a type that is
    not blob is answered with the id error, not with the [InvalidArgument]
    error. *)
Lemma GetBlob_error_kinds_counterexample :
  exists idError writeError,
    fst (@GetBlob desyncBackend "repo.git" idA 0) = inl idError /\
    fst (@GetBlob brokenPipeBackend "repo.git" idA 0) = inl writeError /\
    error_status idError = error_status writeError /\
    error_status idError = None /\
    fst (@GetBlob desyncTreeBackend "repo.git" idA 0) = inl idError /\
    error_status idError <> Some StatusInvalidArgument.
Proof.
  do 2 eexists.
  split; [vm_compute; reflexivity |].
  split; [vm_compute; reflexivity |].
  split; [reflexivity |].
  split; [reflexivity |].
  split; [vm_compute; reflexivity | discriminate].
Qed.

(** C4 on a preview of four bytes of a blob of seven. *)
Lemma blob_content_size_witness :
  exists b p bytes l' p',
    @GetBlob blobBackend "repo.git" idA 4 = (inr b, p) /\
    Size b = 7%Z /\
    ContentSize b = 4%Z /\
    readAll 5 3 (Content b) p = (bytes, true, l', p') /\
    Z.of_nat (length bytes) = ContentSize b.
Proof.
  eexists. eexists.
  edestruct (@blob_content_size blobBackend "repo.git" idA 4)
    as (_ & Hsize & Hread).
  - reflexivity.
  - edestruct (Hread ltac:(simpl; lia) 3 5 ltac:(lia) ltac:(simpl; lia))
      as (bytes & l' & p' & Hrun & _ & Hlen).
    exists bytes, l', p'.
    split; [reflexivity |]. split; [reflexivity |].
    split; [reflexivity |]. split; [exact Hrun | exact Hlen].
Defined.

(** C8 (amended) on a header for another object, on a tree, and on a broken
    pipe. *)
Lemma GetBlob_header_errors_witness :
  (exists msg,
     fst (@GetBlob desyncBackend "repo.git" idA 0) = inl (errorString msg)) /\
  (exists msg,
     fst (@GetBlob treeBackend "repo.git" idA 0)
       = inl (statusError StatusInvalidArgument msg)) /\
  (exists msg,
     fst (@GetBlob brokenPipeBackend "repo.git" idA 0)
       = inl (wrapError msg (errorString "write |1: broken pipe"))).
Proof.
  split; [| split].
  - destruct (@GetBlob_header_errors desyncBackend "repo.git" idA 0) as [H _].
    destruct (H idB "blob" 7%Z eq_refl eq_refl) as [H1 _].
    destruct H1 as [Hrun _]; [discriminate |].
    eexists. exact Hrun.
  - destruct (@GetBlob_header_errors treeBackend "repo.git" idA 0) as [H _].
    destruct (H idA "tree" 7%Z eq_refl eq_refl) as [_ H2].
    destruct H2 as [Hrun _]; [reflexivity | discriminate |].
    eexists. exact Hrun.
  - destruct (@GetBlob_header_errors brokenPipeBackend "repo.git" idA 0) as [_ H].
    destruct (H (errorString "write |1: broken pipe") eq_refl) as [Hrun _].
    eexists. exact Hrun.
Defined.

(** C10 on a preview of four bytes of a blob of seven. *)
Lemma GetBlob_releases_backend_witness :
  let '(r, p) := @GetBlob blobBackend "repo.git" idA 4 in
  match r with
  | inl _ => cancels p = S (cancels (@CatFileBatch blobBackend "repo.git"))
  | inr b =>
      cancels p = cancels (@CatFileBatch blobBackend "repo.git") /\
      forall ks,
        let '(_, l, p') := readSome ks (Content b) p in
        limitReaderCloser_Close l p' = (None, cancel p') /\
        cancels (cancel p') = S (cancels (@CatFileBatch blobBackend "repo.git"))
  end.
Proof.
  exact (@GetBlob_releases_backend blobBackend "repo.git" idA 4).
Defined.

End BlobExamples.

(* ================================================================== *)
(** ** Further runs on concrete pushes and backends *)
(* ================================================================== *)

Module GateMoreExamples.
Import Githook GateLog Demo GateProps.
#[local] Existing Instance hexTypes.

(** X1 on a push with three live updates, two of them creations. *)
Lemma scan_and_discovery_counts_witness :
  scanCalls (snd (fst (@scanSecretsInternal _ quiet repo1 pushAll 0))) = 3 /\
  fallbackCalls (snd (fst (@scanSecretsInternal _ quiet repo1 pushAll 0))) = 1.
Proof.
  pose proof (@scan_and_discovery_counts _ quiet repo1 pushAll 0) as H.
  destruct (@scanSecretsInternal _ quiet repo1 pushAll 0) as [[r calls] w] eqn:Hrun.
  destruct H as (_ & _ & Hok).
  refine (Hok noResult _).
  vm_compute in Hrun. injection Hrun as <- _ _. reflexivity.
Defined.

(** X2 on the same push: the discovery is asked for [feature]. *)
Lemma discovery_asked_for_first_creation_witness :
  exists u a,
    CallGetBaseSHA repo1 env1 (RefUpdates pushAll) createFeature (inr (idD, true))
      = CallGetBaseSHA repo1 (input_Environment pushAll) (RefUpdates pushAll) u a /\
    find isCreation (RefUpdates pushAll) = Some u.
Proof.
  pose proof (@discovery_asked_for_first_creation _ quiet repo1 pushAll 0) as H.
  destruct (@scanSecretsInternal _ quiet repo1 pushAll 0) as [[r calls] w] eqn:Hrun.
  apply H; [| reflexivity].
  vm_compute in Hrun. injection Hrun as _ <- _. left. reflexivity.
Defined.

(** X3 on a push that creates two branches when no fallback is available. *)
Lemma unavailable_fallback_scans_from_root_witness :
  exists done rest,
    live [createFeature; createFeature2] = done ++ rest /\
    scansOf (snd (fst (@scanSecretsInternal _ rootless repo1
                         (push [createFeature; createFeature2]) 0)))
      = map (plannedScan repo1 (push [createFeature; createFeature2]) EmptyString)
            done /\
    rest = [].
Proof.
  pose proof (@unavailable_fallback_scans_from_root _ rootless repo1
                (push [createFeature; createFeature2]) 0) as H.
  destruct (@scanSecretsInternal _ rootless repo1
              (push [createFeature; createFeature2]) 0) as [[r calls] w] eqn:Hrun.
  vm_compute in Hrun. injection Hrun as <- <- _.
  destruct (H idD) as (done & rest & Hlive & Hscans & Hend).
  - left. reflexivity.
  - exists done, rest. split; [exact Hlive |]. split; [exact Hscans |].
    exact (Hend _ eq_refl).
Defined.

(** X4 on the update of [main] to a commit with two leaks. *)
Lemma findings_accumulate_in_order_witness :
  exists res',
    fst (fst (@scanLoop _ leaky repo1 (push [updateMain]) [updateMain]
                None noResult 0)) = inr res' /\
    findings res'
      = findings noResult
        ++ foundIn (snd (fst (@scanLoop _ leaky repo1 (push [updateMain])
                                [updateMain] None noResult 0))).
Proof.
  pose proof (@findings_accumulate_in_order _ leaky repo1 (push [updateMain])
                [updateMain] None noResult 0) as H.
  destruct (@scanLoop _ leaky repo1 (push [updateMain]) [updateMain]
              None noResult 0) as [[[e | res1] calls] w] eqn:Hrun.
  - exfalso. vm_compute in Hrun. discriminate Hrun.
  - exists res1. split; [reflexivity | exact (H res1 eq_refl)].
Defined.

(** X8 on a push whose scan fails. *)
Lemma reported_error_witness :
  snd (fst (fst (@scanSecrets _ scanDown repo1 (push [updateMain]) emptyOutput 0)))
  = Some (reported
            (CallScanSecrets
               (scanParams repo1 (push [updateMain])
                  (idA ++ "^{commit}")%string (idB ++ "^{commit}")%string)
               (inl (errorString "exit status 128")))
            (errorString "exit status 128")).
Proof.
  pose proof (@reported_error _ scanDown repo1 (push [updateMain]) emptyOutput 0) as H.
  destruct (@scanSecrets _ scanDown repo1 (push [updateMain]) emptyOutput 0)
    as [[[output' err] calls] w] eqn:Hrun.
  apply H; [| reflexivity].
  vm_compute in Hrun. injection Hrun as _ _ <- _. right. left. reflexivity.
Defined.

(** X9 on the update of [main]. *)
Lemma scans_read_push_environment_witness :
  exists u,
    In u [updateMain] /\
    isDeletion u = false /\
    (idB ++ "^{commit}")%string = commitRev (New u) /\
    (SHA_IsNil (Old u) = false -> (idA ++ "^{commit}")%string = commitRev (Old u)).
Proof.
  pose proof (@scans_read_push_environment _ quiet repo1 (push [updateMain]) 0) as H.
  destruct (@scanSecretsInternal _ quiet repo1 (push [updateMain]) 0)
    as [[r calls] w] eqn:Hrun.
  vm_compute in Hrun. injection Hrun as _ <- _.
  destruct (H (scanParams repo1 (push [updateMain])
                 (idA ++ "^{commit}")%string (idB ++ "^{commit}")%string))
    as [_ Hu].
  - left. reflexivity.
  - exact Hu.
Defined.

End GateMoreExamples.

Module BlobMoreExamples.
Import Blob Demo BlobProps.

(** A process that dies after three of the seven bytes it declared: the
    stream ends after those three. *)
Example short_delivery :
  match @GetBlob shortBackend "repo.git" idA 0 with
  | (inr b, p) =>
      ContentSize b = 7%Z /\
      fst (fst (readAll 8 4 (Content b) p)) = ([Byte.x73; Byte.x65; Byte.x63], true)
  | (inl _, _) => False
  end.
Proof. vm_compute. repeat split. Qed.

(** X11 on that process. *)
Lemma content_is_prefix_of_stdout_witness :
  exists b p l' p',
    @GetBlob shortBackend "repo.git" idA 0 = (inr b, p) /\
    readAll 8 4 (Content b) p = ([Byte.x73; Byte.x65; Byte.x63], true, l', p') /\
    stdout_pending p' = [].
Proof.
  eexists. eexists.
  edestruct (@content_is_prefix_of_stdout shortBackend "repo.git" idA 0)
    with (k := 4) (fuel := 8) as (l' & p' & Hrun & Hrest & _).
  - reflexivity.
  - lia.
  - simpl. lia.
  - exists l', p'. split; [reflexivity |]. split; [exact Hrun | exact Hrest].
Defined.

(** X12 on a blob of seven bytes. *)
Lemma GetBlob_succeeds_iff_witness :
  exists b p,
    @GetBlob blobBackend "repo.git" idA 4 = (inr b, p) /\
    SHA b = idA /\
    N (reader (Content b)) = ContentSize b /\
    stdout_pending p
      = [Byte.x73; Byte.x65; Byte.x63; Byte.x72; Byte.x65; Byte.x74; Byte.x0a].
Proof.
  destruct (proj2 (proj1 (@GetBlob_succeeds_iff blobBackend "repo.git" idA 4)))
    as (b & p & Hok).
  - split; [reflexivity |]. exists 7%Z. reflexivity.
  - exists b, p. split; [exact Hok |].
    destruct (proj2 (@GetBlob_succeeds_iff blobBackend "repo.git" idA 4) b p Hok)
      as (Hsha & HN & Hrest).
    split; [exact Hsha |]. split; [exact HN | exact Hrest].
Defined.

(** X14 on a preview of four bytes of a blob of seven. *)
Lemma content_partial_iff_witness :
  exists b p,
    @GetBlob blobBackend "repo.git" idA 4 = (inr b, p) /\
    (ContentSize b < Size b)%Z.
Proof.
  eexists. eexists. split; [reflexivity |].
  apply (@content_partial_iff blobBackend "repo.git" idA 4 _ _ eq_refl).
  simpl. lia.
Defined.

(** X15 on a header that names a tree. *)
Lemma GetBlob_errors_exhaustive_witness :
  exists e p,
    @GetBlob treeBackend "repo.git" idA 0 = (inl e, p) /\
    error_status e = Some StatusInvalidArgument.
Proof.
  destruct (@GetBlob treeBackend "repo.git" idA 0) as [[e | b] p] eqn:Hrun.
  - exists e, p. split; [reflexivity |].
    destruct (@GetBlob_errors_exhaustive treeBackend "repo.git" idA 0 e p Hrun)
      as [(cause & Hw & _) | [(_ & err & Hh & _) | [(_ & o & t & n & Hh & Hne & _)
         | (_ & t & n & _ & _ & ->)]]].
    + discriminate Hw.
    + discriminate Hh.
    + exfalso. apply Hne. injection Hh as <- _ _. reflexivity.
    + reflexivity.
  - exfalso. vm_compute in Hrun. discriminate Hrun.
Defined.

End BlobMoreExamples.
